(** * RetinaFace post-processing (retinaface-js, src/index.ts)

    A shallow embedding of the detection-decoding pipeline of
    [src/index.ts]: anchor generation, per-stride proposal decoding,
    the multi-stride aggregation, greedy non-maximum suppression and the
    final coordinate rescale, together with the properties the
    specification states about them.

    JavaScript numbers are IEEE-754 binary64 values; they are modelled by
    Rocq's primitive floats, whose operations are specified bit for bit by
    [FloatAxioms] over [SpecFloat]. *)

From Stdlib Require Import ZArith Floats Lia.
From stdpp Require Import base option list sorting strings gmap pretty.

(** ** JavaScript numbers *)

Module Num.

(** A JS [number]. *)
Definition num := float.

(** [ToNumber(undefined)] is [NaN]: reading a numeric array out of range
    yields [undefined], which every arithmetic use and every comparison
    of the source converts to [NaN]. *)
Definition of_undefined (o : option num) : num := default nan o.

(** [arr[i]] on a [number[]] or a [Float32Array], used as a number. *)
Definition num_at (arr : list num) (i : nat) : num := of_undefined (arr !! i).

(** The number of an array index or of a pixel count (exact below 2^53). *)
Definition of_nat (n : nat) : num := of_uint63 (Uint63.of_Z (Z.of_nat n)).

(** An integer of magnitude at most 2^53, as a number. *)
Definition of_Z (z : Z) : num :=
  match z with
  | Z0 => zero
  | Zpos _ => of_uint63 (Uint63.of_Z z)
  | Zneg p => (- of_uint63 (Uint63.of_Z (Zpos p)))%float
  end.

(** [a > b] and [a >= b] of the source. *)
Definition gt (a b : num) : bool := (b <? a)%float.
Definition ge (a b : num) : bool := (b <=? a)%float.
Arguments gt (a b)%_float.
Arguments ge (a b)%_float.

(** [Math.max(a, b)] (ECMA-262 21.3.2.24): [NaN] if either argument is
    [NaN], and [+0] is larger than [-0]. *)
Definition Math_max (a b : num) : num :=
  match (a ?= b)%float with
  | FNotComparable => nan
  | FLt => b
  | FGt => a
  | FEq => if Leibniz.eqb a neg_zero then b else a
  end.

(** [Math.min(a, b)] (ECMA-262 21.3.2.25): [NaN] if either argument is
    [NaN], and [-0] is smaller than [+0]. *)
Definition Math_min (a b : num) : num :=
  match (a ?= b)%float with
  | FNotComparable => nan
  | FLt => a
  | FGt => b
  | FEq => if Leibniz.eqb b neg_zero then b else a
  end.

Arguments Math_max (a b)%_float.
Arguments Math_min (a b)%_float.

(** [Math.sqrt] is the correctly rounded square root. *)
Definition Math_sqrt (x : num) : num := PrimFloat.sqrt x.

(** [Math.round(x)] (ECMA-262 21.3.2.28): [x] itself when it is not
    finite or already integral; otherwise the integer closest to [x],
    ties going towards +infinity, with the sign of [x] kept on a zero
    result.  A finite non-integral [x] is [±m·2^e] with [e < 0], so the
    closest integer is [floor((±m + 2^(-e-1)) / 2^(-e))], computed
    exactly over [Z]. *)
Definition Math_round (x : num) : num :=
  match Prim2SF x with
  | S754_finite s m e =>
      if (0 <=? e)%Z then x
      else
        let n := if s then Zneg m else Zpos m in
        let r := Z.shiftr (n + 2 ^ (- e - 1)) (- e) in
        if (r =? 0)%Z then (if s then neg_zero else zero) else of_Z r
  | _ => x
  end.

(** [Math.exp(x)] (ECMA-262 21.3.2.14) is implementation-approximated
    except at the arguments the standard fixes: [NaN] gives [NaN], [+0]
    and [-0] give [1], [+∞] gives [+∞] and [-∞] gives [+0].  The
    approximation used elsewhere is the engine's, [exp_impl]. *)
Definition Math_exp (exp_impl : num -> num) (x : num) : num :=
  if is_nan x then nan
  else if is_zero x then one
  else if is_infinity x then (if (x <? 0)%float then zero else infinity)
  else exp_impl x.

(** A sample engine approximation of [e^x], [(1 + x/2^10)^(2^10)], used
    where a concrete engine is needed to run the pipeline. *)
Definition exp_sample (x : num) : num :=
  let sq (y : num) := (y * y)%float in
  Nat.iter 10 sq (1 + x / 1024)%float.

End Num.
Export Num.

(** ** Exceptions and the error monad *)

(** What the pipeline can throw: the [Error] of [detect]'s size check
    (index.ts:169, message "image should be {width}x{height}"), a
    [TypeError] from dereferencing [undefined], the [RangeError] of a
    call that spreads more arguments than the engine accepts
    (index.ts:125), the [Error] of the [Tensor] constructor when the
    data do not fill the shape (index.ts:181, message "Tensor's
    size({size}) does not match data length({length})."), and a failure
    of the inference engine, which is passed on unchanged. *)
Inductive Exn :=
  | ImageShouldBe (width height : nat)
  | TypeError
  | RangeError
  | TensorSizeMismatch (size dataLength : nat)
  | EngineFailure (reason : string).

Inductive Result (A : Type) :=
  | Ok (a : A)
  | Err (e : Exn).
Arguments Ok {A} a.
Arguments Err {A} e.

Definition bindR {A B} (r : Result A) (k : A -> Result B) : Result B :=
  match r with
  | Ok a => k a
  | Err e => Err e
  end.

Declare Scope result_scope.
Delimit Scope result_scope with R.
Notation "x ←R r ; k" := (bindR r (fun x => k))
  (at level 100, r at next level, k at level 200, right associativity,
   only parsing) : result_scope.
Open Scope result_scope.

(** Using a possibly-[undefined] value as an object: a property access on
    [undefined] throws a [TypeError]. *)
Definition deref {A} (o : option A) : Result A :=
  match o with
  | Some a => Ok a
  | None => Err TypeError
  end.

(** [for (const x of xs) s = body(s, x)], stopping at the first throw. *)
Fixpoint foldR {S A} (body : S -> A -> Result S) (xs : list A) (s : S) : Result S :=
  match xs with
  | [] => Ok s
  | x :: xs' => s' ←R body s x; foldR body xs' s'
  end.

(** [xs.map(f)] when [f] may throw. *)
Fixpoint mapR {A B} (f : A -> Result B) (xs : list A) : Result (list B) :=
  match xs with
  | [] => Ok []
  | x :: xs' => y ←R f x; ys ←R mapR f xs'; Ok (y :: ys)
  end.

(** [for (let i = 0; i < n; i++) s = body(i, s)]. *)
Definition for_loop {S} (n : nat) (body : nat -> S -> S) (s : S) : S :=
  fold_left (fun s i => body i s) (seq 0 n) s.

(** ** JavaScript arrays *)

(** An [Array]: a slot is [None] when it is a hole, which reads as
    [undefined]. *)
Abbreviation JsArray A := (list (option A)).

(** [arr[k] = v]: overwrites slot [k], and extends the array (leaving
    holes) when [k] is at or beyond its length. *)
Definition js_set {A} (arr : JsArray A) (k : nat) (v : A) : JsArray A :=
  if decide (k < length arr) then <[k := Some v]> arr
  else arr ++ replicate (k - length arr) None ++ [Some v].

(** [arr[k]], [undefined] ([None]) for a hole or out of range. *)
Definition js_get {A} (arr : JsArray A) (k : nat) : option A := mjoin (arr !! k).

(** ** Data model *)

(** [[number, number, number, number]]: (x0, y0, x1, y1). *)
Record Rect := mkRect { r0 : num; r1 : num; r2 : num; r3 : num }.
Arguments mkRect (r0 r1 r2 r3)%_float.

(** [FaceObject] (index.ts:3-7). *)
Record FaceObject := mkFace {
  rect : Rect;
  landmarks : list (num * num);
  prob : num
}.

(** An onnxruntime [Tensor]: its [dims] and the buffer that [getData()]
    resolves to. *)
Record Tensor := mkTensor {
  dims : list nat;
  getData : list num
}.

(** The browser's [ImageData]: RGBA bytes, row-major. *)
Module ImageData.
Record t := mk {
  width : nat;
  height : nat;
  data : list Z
}.
End ImageData.

(** ** Anchor generator (index.ts:9-35) *)

Definition generateAnchors (baseSize : num) (ratios scales : list num) : JsArray Rect :=
  let numRatio := length ratios in
  let numScale := length scales in
  let cx := (baseSize * 0.5)%float in
  let cy := (baseSize * 0.5)%float in
  for_loop numRatio (fun i anchors =>
    let ar := num_at ratios i in
    let rW := Math_round (baseSize / Math_sqrt ar)%float in
    let rH := Math_round (rW * ar)%float in
    for_loop numScale (fun j anchors =>
      let scale := num_at scales j in
      let rsW := (rW * scale * 0.5)%float in
      let rsH := (rH * scale * 0.5)%float in
      js_set anchors (i * numScale + j)
        (mkRect (cx - rsW)%float (cy - rsH)%float (cx + rsW)%float (cy + rsH)%float))
    anchors) [].
Arguments generateAnchors baseSize%_float ratios scales.

(** ** Proposal decoder (index.ts:37-114) *)

Section Decoder.

(** The engine's approximation behind [Math.exp]. *)
Variable exp_impl : num -> num.

(** The engine's bound on call arguments: whether it accepts a call
    that passes [n] arguments.  The bound differs between engines (a
    fixed count in JavaScriptCore, the free stack in V8). *)
Variable acceptsArguments : nat -> bool.

(** Lines 72-101: the candidate decoded at one grid cell. *)
Definition decodeCell (anchorX anchorY anchorW anchorH : num)
    (bbox landmark : list num) (bboxOffset landmarkOffset index offset : nat)
    (prob : num) : FaceObject :=
  let dx := num_at bbox (bboxOffset + index + offset * 0) in
  let dy := num_at bbox (bboxOffset + index + offset * 1) in
  let dw := num_at bbox (bboxOffset + index + offset * 2) in
  let dh := num_at bbox (bboxOffset + index + offset * 3) in
  let cx := (anchorX + anchorW * 0.5)%float in
  let cy := (anchorY + anchorH * 0.5)%float in
  let pbCx := (cx + anchorW * dx)%float in
  let pbCy := (cy + anchorH * dy)%float in
  let pbW := (anchorW * Math_exp exp_impl dw)%float in
  let pbH := (anchorH * Math_exp exp_impl dh)%float in
  let x0 := (pbCx - pbW * 0.5)%float in
  let y0 := (pbCy - pbH * 0.5)%float in
  let x1 := (pbCx + pbW * 0.5)%float in
  let y1 := (pbCy + pbH * 0.5)%float in
  let lm (k : nat) := num_at landmark (landmarkOffset + index + offset * k) in
  {| rect := mkRect x0 y0 x1 y1;
     landmarks :=
       [ ((cx + (anchorW + 1) * lm 0%nat)%float, (cy + (anchorH + 1) * lm 1%nat)%float);
         ((cx + (anchorW + 1) * lm 2%nat)%float, (cy + (anchorH + 1) * lm 3%nat)%float);
         ((cx + (anchorW + 1) * lm 4%nat)%float, (cy + (anchorH + 1) * lm 5%nat)%float);
         ((cx + (anchorW + 1) * lm 6%nat)%float, (cy + (anchorH + 1) * lm 7%nat)%float);
         ((cx + (anchorW + 1) * lm 8%nat)%float, (cy + (anchorH + 1) * lm 9%nat)%float) ];
     prob := prob |}.

(** Lines 66-107: one row of the grid; the state is [(anchorX, faces)]. *)
Definition decodeRow (w : nat) (featStride probThreshold : num)
    (score bbox landmark : list num)
    (scoreOffset bboxOffset landmarkOffset offset : nat)
    (anchorY anchorW anchorH : num) (i : nat)
    (st : num * list FaceObject) : num * list FaceObject :=
  for_loop w (fun j '(anchorX, faces) =>
    let index := i * w + j in
    let prob := num_at score (scoreOffset + index) in
    let faces :=
      if ge prob probThreshold
      then faces ++ [decodeCell anchorX anchorY anchorW anchorH bbox landmark
                       bboxOffset landmarkOffset index offset prob]
      else faces in
    ((anchorX + featStride)%float, faces)) st.

(** Lines 51-111: the grid walk for anchor [q]; [anchor[1]] on a hole of
    the anchor array throws. *)
Definition decodeAnchor (anchors : JsArray Rect) (w h : nat)
    (featStride probThreshold : num) (score bbox landmark : list num)
    (faces : list FaceObject) (q : nat) : Result (list FaceObject) :=
  let numAnchors := length anchors in
  let offset := w * h in
  anchor ←R deref (js_get anchors q);
  let scoreOffset := (q + numAnchors) * offset in
  let bboxOffset := q * 4 * offset in
  let landmarkOffset := q * 10 * offset in
  let anchorW := (r2 anchor - r0 anchor)%float in
  let anchorH := (r3 anchor - r1 anchor)%float in
  let '(_, faces) :=
    for_loop h (fun i '(anchorY, faces) =>
      let '(_, faces) :=
        decodeRow w featStride probThreshold score bbox landmark
          scoreOffset bboxOffset landmarkOffset offset
          anchorY anchorW anchorH i (r0 anchor, faces) in
      ((anchorY + featStride)%float, faces)) (r1 anchor, faces) in
  Ok faces.

(** [generateProposals].  A tensor the result map lacks is [undefined],
    and [bboxT.dims] or [getData()] on it throws.  A dimension missing
    from [dims] is [undefined] too: the loop guard [i < undefined] is
    false at once, as it is for 0.  Offsets are array indices, below
    2^53, where the source's number arithmetic is exact. *)
Definition generateProposals (anchors : JsArray Rect) (featStride : num)
    (scoreT bboxT landmarkT : option Tensor) (probThreshold : num)
    : Result (list FaceObject) :=
  bboxT ←R deref bboxT;
  let bboxDims := dims bboxT in
  let w := default 0 (bboxDims !! 3) in
  let h := default 0 (bboxDims !! 2) in
  scoreT ←R deref scoreT;
  let score := getData scoreT in
  let bbox := getData bboxT in
  landmarkT ←R deref landmarkT;
  let landmark := getData landmarkT in
  let numAnchors := length anchors in
  foldR (decodeAnchor anchors w h featStride probThreshold score bbox landmark)
    (seq 0 numAnchors) [].

(** ** Multi-stride aggregator (index.ts:116-126) *)

(** ['name' + stride]: the decimal numeral of the stride is appended. *)
Definition strideName (prefix : string) (stride : nat) : string :=
  prefix +:+ pretty stride.

(** [arr.push(...items)]: every item is passed as an argument of the
    one call, which throws a [RangeError] when the engine does not
    accept that many. *)
Definition push_spread {A} (arr items : list A) : Result (list A) :=
  if acceptsArguments (length items) then Ok (arr ++ items) else Err RangeError.

Definition processStride (results : gmap string Tensor)
    (faceProposals : list FaceObject) (probThreshold : num) (stride : nat)
    (scales : list num) : Result (list FaceObject) :=
  let score := results !! strideName "face_rpn_cls_prob_reshape_stride" stride in
  let bbox := results !! strideName "face_rpn_bbox_pred_stride" stride in
  let landmark := results !! strideName "face_rpn_landmark_pred_stride" stride in
  let baseSize := 16%float in
  let featStride := Num.of_nat stride in
  let anchors := generateAnchors baseSize [1%float] scales in
  proposals ←R generateProposals anchors featStride score bbox landmark probThreshold;
  push_spread faceProposals proposals.

End Decoder.

Arguments generateProposals exp_impl anchors featStride%_float
  scoreT bboxT landmarkT probThreshold%_float.
Arguments processStride exp_impl acceptsArguments results faceProposals
  probThreshold%_float stride%_nat scales.

(** ** Suppression engine (index.ts:128-151) *)

(** Line 133: the area of a candidate's rect. *)
Definition area (obj : FaceObject) : num :=
  ((r2 (rect obj) - r0 (rect obj)) * (r3 (rect obj) - r1 (rect obj)))%float.

(** Line 142. *)
Definition interArea (a b : FaceObject) : num :=
  (Math_max 0 (Math_min (r2 (rect a)) (r2 (rect b)) - Math_max (r0 (rect a)) (r0 (rect b)))
   * Math_max 0 (Math_min (r3 (rect a)) (r3 (rect b)) - Math_max (r1 (rect a)) (r1 (rect b))))%float.

(** Lines 139-145: the scan of candidate [i] against the picked ones;
    [a.rect] and [b.rect] throw on [undefined]. *)
Definition nmsKeep (faceObjects : list FaceObject) (areas : list num)
    (nmsThreshold : num) (i : nat) (picked : list nat) : Result bool :=
  let a := faceObjects !! i in
  foldR (fun keep j =>
    let b := faceObjects !! j in
    a ←R deref a;
    b ←R deref b;
    let interArea := interArea a b in
    let unionArea := (num_at areas i + num_at areas j - interArea)%float in
    Ok (if gt (interArea / unionArea)%float nmsThreshold then false else keep))
  picked true.

Definition nmsSortedBboxes (faceObjects : list FaceObject) (nmsThreshold : num)
    : Result (list nat) :=
  let n := length faceObjects in
  let areas := area <$> faceObjects in
  foldR (fun picked i =>
    keep ←R nmsKeep faceObjects areas nmsThreshold i picked;
    Ok (if keep : bool then picked ++ [i] else picked))
  (seq 0 n) [].

Arguments nmsSortedBboxes faceObjects nmsThreshold%_float.

(** ** [Array.prototype.sort] *)

(** [arr.sort(cmp)] is a stable sort (ECMA-262 23.1.3.30); a comparator
    result that is [NaN] counts as 0.  [x] moves behind [y] exactly when
    [cmp(x, y) > 0]; insertion from the right keeps equal elements in
    their original order. *)
Fixpoint sortInsert {A} (cmp : A -> A -> num) (x : A) (l : list A) : list A :=
  match l with
  | [] => [x]
  | y :: l' => if gt (cmp x y) 0%float then y :: sortInsert cmp x l' else x :: l
  end.

Definition js_sort {A} (cmp : A -> A -> num) (l : list A) : list A :=
  foldr (sortInsert cmp) [] l.

(** ** The detector (index.ts:164-207) *)

(** What [session.run] settles to: the named output tensors, or a
    rejection by the engine. *)
Inductive RunOutcome :=
  | Resolved (results : gmap string Tensor)
  | Rejected (reason : string).

(** [new Tensor('float32', data, dims)] of onnxruntime: the size of the
    shape, the product of its dimensions, must be the length of the
    data, or the constructor throws. *)
Definition Tensor_new (data : list num) (dims : list nat) : Result Tensor :=
  let size := foldr Nat.mul 1 dims in
  if decide (size = length data) then Ok (mkTensor dims data)
  else Err (TensorSizeMismatch size (length data)).

Section Retinaface.

(** The inference session: [run] may change the engine's state [σ]. *)
Variable σ : Type.
Variable session_run : σ -> Tensor -> σ * RunOutcome.

(** The network input resolution, pixel counts (512 by default). *)
Variable width height : nat.

Variable exp_impl : num -> num.
Variable acceptsArguments : nat -> bool.

(** Lines 172-179: RGBA bytes to three planes.  The buffer has
    [data.length / 4 * 3] entries, truncated to an integer; a store
    beyond the buffer is ignored and a byte read beyond the image is
    [undefined], stored as [NaN]. *)
Definition toNCHW (imageData : ImageData.t) : list num :=
  let pixel (k : nat) := of_undefined (Num.of_Z <$> ImageData.data imageData !! k) in
  let data := replicate (length (ImageData.data imageData) * 3 / 4) 0%float in
  let len := width * height in
  for_loop len (fun i data =>
    let data := <[i := pixel (i * 4)]> data in
    let data := <[i + len := pixel (i * 4 + 1)]> data in
    let data := <[i + len * 2 := pixel (i * 4 + 2)]> data in
    data) data.

(** Lines 192-206: the rescale of one picked candidate. *)
Definition rescale (scale : num) (obj : FaceObject) : FaceObject :=
  let x0 := (Math_max (Math_min (r0 (rect obj)) (Num.of_nat width - 1)) 0 / scale)%float in
  let y0 := (Math_max (Math_min (r1 (rect obj)) (Num.of_nat height - 1)) 0 / scale)%float in
  let x1 := (Math_max (Math_min (r2 (rect obj)) (Num.of_nat width - 1)) 0 / scale)%float in
  let y1 := (Math_max (Math_min (r3 (rect obj)) (Num.of_nat height - 1)) 0 / scale)%float in
  {| rect := mkRect x0 y0 x1 y1;
     landmarks := (fun landmark => ((landmark.1 / scale)%float, (landmark.2 / scale)%float))
                    <$> landmarks obj;
     prob := prob obj |}.

(** [detect(imageData, scale = 1, probThreshold = 0.75, nmsThreshold = 0.5)]:
    the engine state after the call and its outcome.  The input tensor
    is built before the session is run (line 181): when its constructor
    throws, the engine is left as it was. *)
Definition detect (imageData : ImageData.t) (scale probThreshold nmsThreshold : num)
    (s : σ) : σ * Result (list FaceObject) :=
  if bool_decide (ImageData.width imageData ≠ width ∨ ImageData.height imageData ≠ height)
  then (s, Err (ImageShouldBe width height))
  else
    let data := toNCHW imageData in
    match Tensor_new data [1; 3; height; width] with
    | Err e => (s, Err e)
    | Ok input =>
        let '(s, outcome) := session_run s input in
        (s,
         results ←R match outcome with
                    | Resolved results => Ok results
                    | Rejected reason => Err (EngineFailure reason)
                    end;
         let faceProposals := [] in
         faceProposals ←R processStride exp_impl acceptsArguments results faceProposals
                            probThreshold 32 [32; 16]%float;
         faceProposals ←R processStride exp_impl acceptsArguments results faceProposals
                            probThreshold 16 [8; 4]%float;
         faceProposals ←R processStride exp_impl acceptsArguments results faceProposals
                            probThreshold 8 [2; 1]%float;
         let faceProposals := js_sort (fun a b => (prob b - prob a)%float) faceProposals in
         picked ←R nmsSortedBboxes faceProposals nmsThreshold;
         mapR (fun i => obj ←R deref (faceProposals !! i); Ok (rescale scale obj)) picked)
    end.

End Retinaface.

Arguments rescale (width height)%_nat scale%_float obj.
Arguments detect {σ} session_run (width height)%_nat exp_impl acceptsArguments imageData
  (scale probThreshold nmsThreshold)%_float s.

(** The defaults of [detect]'s optional parameters. *)
Definition default_scale : num := 1%float.
Definition default_probThreshold : num := 0.75%float.
Definition default_nmsThreshold : num := 0.5%float.

(** The intersection-over-union quotient of line 144, for two candidates
    with their areas as line 133 computes them. *)
Definition iou (a b : FaceObject) : num :=
  (interArea a b / (area a + area b - interArea a b))%float.

(** A rect of non-negative width and height. *)
Definition wellFormed (obj : FaceObject) : Prop :=
  ge (r2 (rect obj) - r0 (rect obj))%float 0%float = true
  ∧ ge (r3 (rect obj) - r1 (rect obj))%float 0%float = true.

(** [IoU > nmsThreshold] for the candidates at indices [i] and [j]. *)
Definition exceeds (faceObjects : list FaceObject) (nmsThreshold : num) (i j : nat) : bool :=
  match faceObjects !! i, faceObjects !! j with
  | Some a, Some b => gt (iou a b) nmsThreshold
  | _, _ => false
  end.

(** The greedy scan over the first [k] candidates, as a recursion on [k]:
    the picked list after [k] iterations of the loop of line 135. *)
Fixpoint greedyPick (faceObjects : list FaceObject) (nmsThreshold : num) (k : nat) : list nat :=
  match k with
  | 0 => []
  | S k' =>
      let picked := greedyPick faceObjects nmsThreshold k' in
      if forallb (fun j => negb (exceeds faceObjects nmsThreshold k' j)) picked
      then picked ++ [k'] else picked
  end.

(** [picked.map(i => faceObjects[i])]: the candidates the engine picked. *)
Definition pickedCandidates (faceObjects : list FaceObject) (picked : list nat)
    : list FaceObject :=
  omap (fun i => faceObjects !! i) picked.

(** A candidate decoded from these buffers at some cell whose score, read
    in range, passed the threshold. *)
Definition decodedFrom (exp_impl : num -> num) (score bbox landmark : list num)
    (probThreshold : num) (f : FaceObject) : Prop :=
  exists (anchorX anchorY anchorW anchorH : num)
         (bboxOffset landmarkOffset index offset k : nat) (p : num),
    score !! k = Some p
    ∧ ge p probThreshold = true
    ∧ f = decodeCell exp_impl anchorX anchorY anchorW anchorH bbox landmark
            bboxOffset landmarkOffset index offset p.

(** The states of two grid walks, at the lower and at the higher
    threshold: the same anchor position, and fewer candidates. *)
Definition walkLe (st1 st2 : num * list FaceObject) : Prop :=
  st1.1 = st2.1 ∧ st2.2 `sublist_of` st1.2.

(** The anchor of a ratio [ar] and a scale [s], in the words of the
    specification (4.1): the box about [(baseSize/2, baseSize/2)] with
    half-extents [rW*s/2] and [rH*s/2]. *)
Definition anchorBox (baseSize ar s : num) : Rect :=
  let cx := (baseSize / 2)%float in
  let cy := (baseSize / 2)%float in
  let rW := Math_round (baseSize / Math_sqrt ar)%float in
  let rH := Math_round (rW * ar)%float in
  let rsW := (rW * s / 2)%float in
  let rsH := (rH * s / 2)%float in
  mkRect (cx - rsW) (cy - rsH) (cx + rsW) (cy + rsH).

(** [clamp(x, lo, hi)] as the rescale step writes it. *)
Definition clamp (x lo hi : num) : num := Math_max (Math_min x hi) lo.
Arguments clamp (x lo hi)%_float.

(** A rect fully inside [0, width-1]×[0, height-1]. *)
Definition inside (width height : nat) (r : Rect) : Prop :=
  let inRange (c : num) (dimension : nat) :=
    ge c 0 = true ∧ ge (Num.of_nat dimension - 1) c = true in
  inRange (r0 r) width ∧ inRange (r1 r) height
  ∧ inRange (r2 r) width ∧ inRange (r3 r) height.

(** [c'] is the number [c], with [+0] in place of [-0]. *)
Definition unsignedZero (c c' : num) : Prop :=
  c' = c ∨ (c = neg_zero ∧ c' = zero).
Arguments unsignedZero (c c')%_float.

(** ** Sample inputs *)

Definition sampleFace (x0 y0 x1 y1 p : num) : FaceObject :=
  {| rect := mkRect x0 y0 x1 y1; landmarks := replicate 5 (0%float, 0%float); prob := p |}.
Arguments sampleFace (x0 y0 x1 y1 p)%_float.

(** A candidate whose rect is the single point (0, 0). *)
Definition pointFace : FaceObject := sampleFace 0 0 0 0 0x1.ccccccp-1.

(** Two candidates of IoU 0.6 and a third apart from both. *)
Definition sampleFaces : list FaceObject :=
  [ sampleFace 0 0 10 10 0x1.ccccccp-1;
    sampleFace 0 0 10 6 0.75;
    sampleFace 20 20 30 30 0.5 ].

(** One anchor on a 1×2 grid: background scores, then the face scores
    0.9 and 0.6 as a [Float32Array] holds them. *)
Definition sampleAnchors : JsArray Rect := [Some (mkRect 0 0 16 16)].
Definition sampleScoreT : Tensor :=
  mkTensor [1; 2; 1; 2] [0x1.99999ap-4; 0x1.99999ap-2; 0x1.ccccccp-1; 0x1.333334p-1]%float.
Definition sampleBboxT : Tensor := mkTensor [1; 4; 1; 2] (replicate 8 0%float).
Definition sampleLandmarkT : Tensor := mkTensor [1; 10; 1; 2] (replicate 20 0%float).



(** The outputs of a session for a 32×32 input: one cell at stride 32,
    whose four scores are given, and all-zero tensors at strides 16 and
    8. *)
Definition sampleResults (score32 : list num) : gmap string Tensor :=
  list_to_map
    [ ("face_rpn_cls_prob_reshape_stride32", mkTensor [1; 4; 1; 1] score32);
      ("face_rpn_bbox_pred_stride32", mkTensor [1; 8; 1; 1] (replicate 8 0%float));
      ("face_rpn_landmark_pred_stride32", mkTensor [1; 20; 1; 1] (replicate 20 0%float));
      ("face_rpn_cls_prob_reshape_stride16", mkTensor [1; 4; 2; 2] (replicate 16 0%float));
      ("face_rpn_bbox_pred_stride16", mkTensor [1; 8; 2; 2] (replicate 32 0%float));
      ("face_rpn_landmark_pred_stride16", mkTensor [1; 20; 2; 2] (replicate 80 0%float));
      ("face_rpn_cls_prob_reshape_stride8", mkTensor [1; 4; 4; 4] (replicate 64 0%float));
      ("face_rpn_bbox_pred_stride8", mkTensor [1; 8; 4; 4] (replicate 128 0%float));
      ("face_rpn_landmark_pred_stride8", mkTensor [1; 20; 4; 4] (replicate 320 0%float)) ].

(** A session that counts its runs and always resolves to
    [sampleResults]. *)
Definition countingSession (score32 : list num) (runs : nat) (input : Tensor)
    : nat * RunOutcome :=
  (S runs, Resolved (sampleResults score32)).

(** The outputs of a session with a single cell at stride 8 only, where
    the face score of the second anchor is 0.9, and the candidate
    [processStride] decodes from them: the anchor (0, 0, 16, 16). *)
Definition stride8Results : gmap string Tensor :=
  list_to_map
    [ ("face_rpn_cls_prob_reshape_stride8",
       mkTensor [1; 4; 1; 1] [0; 0; 0; 0x1.ccccccp-1]%float);
      ("face_rpn_bbox_pred_stride8", mkTensor [1; 8; 1; 1] (replicate 8 0%float));
      ("face_rpn_landmark_pred_stride8", mkTensor [1; 20; 1; 1] (replicate 20 0%float)) ].
Definition stride8Face : FaceObject :=
  {| rect := mkRect 0 0 16 16; landmarks := replicate 5 (8%float, 8%float);
     prob := 0x1.ccccccp-1%float |}.

(** An engine that accepts up to 65535 call arguments. *)
Definition sampleAccepts (n : nat) : bool := (Z.of_nat n <=? 65535)%Z.

(** A black 32×32 image and a black 16×32 image. *)
Definition sampleImage : ImageData.t :=
  ImageData.mk 32 32 (replicate (4 * 32 * 32) 0%Z).
Definition smallImage : ImageData.t :=
  ImageData.mk 16 32 (replicate (4 * 16 * 32) 0%Z).

(** What [detect] returns on [sampleImage] when the two face scores at
    stride 32 are [p] and 0.8: both anchors, clamped to the image. *)
Definition sampleDetection (p : num) : list FaceObject :=
  [ {| rect := mkRect 0 0 31 31; landmarks := replicate 5 (8%float, 8%float); prob := p |};
    {| rect := mkRect 0 0 31 31; landmarks := replicate 5 (8%float, 8%float);
       prob := 0x1.99999ap-1%float |} ].
Arguments sampleDetection p%_float.

(** The strides [detect] decodes (lines 184-186). *)
Definition strides : list nat := [32; 16; 8].

(** Every score of the three score tensors is at most 1. *)
Definition scoresAtMostOne (results : gmap string Tensor) : Prop :=
  forall (stride : nat) (t : Tensor) (p : num),
    stride ∈ strides ->
    results !! strideName "face_rpn_cls_prob_reshape_stride" stride = Some t ->
    p ∈ getData t -> (p <=? 1)%float = true.

(** A candidate whose prob passed the threshold and is a score of one of
    the three score tensors. *)
Definition scoredBy (results : gmap string Tensor) (probThreshold : num)
    (f : FaceObject) : Prop :=
  ge (prob f) probThreshold = true
  ∧ exists (stride : nat) (t : Tensor),
      stride ∈ strides
      ∧ results !! strideName "face_rpn_cls_prob_reshape_stride" stride = Some t
      ∧ prob f ∈ getData t.

(** A 2×1 image: an opaque orange pixel and a half-transparent blue
    one. *)
Definition tinyImage : ImageData.t :=
  ImageData.mk 2 1 [255; 128; 0; 255; 0; 64; 255; 127]%Z.

(** The comparator of line 188. *)
Definition byProbDescending (a b : FaceObject) : num := (prob b - prob a)%float.

(** The three output tensors of a stride are in the result map. *)
Definition outputsPresent (results : gmap string Tensor) (stride : nat) : Prop :=
  is_Some (results !! strideName "face_rpn_cls_prob_reshape_stride" stride)
  ∧ is_Some (results !! strideName "face_rpn_bbox_pred_stride" stride)
  ∧ is_Some (results !! strideName "face_rpn_landmark_pred_stride" stride).



(** No coordinate of the rect is [-0]. *)
Definition noNegZero (r : Rect) : Prop :=
  r0 r ≠ neg_zero ∧ r1 r ≠ neg_zero ∧ r2 r ≠ neg_zero ∧ r3 r ≠ neg_zero.

(** [a === b] on numbers: the same number, [+0] and [-0] being one. *)
Definition sameNumber (a b : num) : Prop := (a =? b)%float = true.
Arguments sameNumber (a b)%_float.

(** Two rects of the same four numbers. *)
Definition sameRect (r r' : Rect) : Prop :=
  sameNumber (r0 r) (r0 r') ∧ sameNumber (r1 r) (r1 r')
  ∧ sameNumber (r2 r) (r2 r') ∧ sameNumber (r3 r) (r3 r').

(** The stride and the anchor scales of [detect]'s three calls of
    [processStride] (lines 184-186). *)
Definition strideScales : list (nat * list num) :=
  [(32, [32; 16]%float); (16, [8; 4]%float); (8, [2; 1]%float)].

(** [obj] is a proposal that one of these three calls decodes from the
    session's outputs. *)
Definition proposed (exp_impl : num -> num) (acceptsArguments : nat -> bool)
    (results : gmap string Tensor) (probThreshold : num) (obj : FaceObject) : Prop :=
  exists (stride : nat) (scales : list num) (proposals : list FaceObject),
    (stride, scales) ∈ strideScales
    ∧ processStride exp_impl acceptsArguments results [] probThreshold stride scales
      = Ok proposals
    ∧ obj ∈ proposals.
Arguments proposed exp_impl acceptsArguments results probThreshold%_float obj.



(** Probs never increase along the list. *)
Definition descending (faces : list FaceObject) : Prop :=
  StronglySorted (fun f g => ge (prob f) (prob g) = true) faces.

(** No coordinate of the rect is [NaN]. *)
Definition noNaN (r : Rect) : Prop :=
  is_nan (r0 r) = false ∧ is_nan (r1 r) = false
  ∧ is_nan (r2 r) = false ∧ is_nan (r3 r) = false.

(** * Properties *)

(** ** Facts about binary64 comparisons and arithmetic *)

Module NumFacts.

Lemma SFcompare_antisym (x y : spec_float) :
  SFcompare y x = CompOpp <$> SFcompare x y.
Proof.
  destruct x as [[]|[]| |[] mx ex], y as [[]|[]| |[] my ey]; simpl; try reflexivity.
  all: rewrite (Z.compare_antisym ex ey); destruct (ex ?= ey)%Z; simpl; try reflexivity.
  all: change (Pos.compare_cont Eq my mx) with (my ?= mx)%positive;
    change (Pos.compare_cont Eq mx my) with (mx ?= my)%positive;
    rewrite (Pos.compare_antisym mx my); destruct (mx ?= my)%positive; reflexivity.
Qed.

Lemma SFltb_SFleb_trans (x y z : spec_float) :
  SFltb x y = true -> SFleb y z = true -> SFleb x z = true.
Proof.
  unfold SFltb, SFleb.
  destruct x as [[]|[]| |[] mx ex], y as [[]|[]| |[] my ey], z as [[]|[]| |[] mz ez];
    simpl; try congruence.
  all: change (Pos.compare_cont Eq ?a ?b) with (a ?= b)%positive.
  all: repeat match goal with
       | |- context [(?a ?= ?b)%Z] => destruct (Z.compare_spec a b); simpl
       | |- context [(?a ?= ?b)%positive] => destruct (Pos.compare_spec a b); simpl
       end; try congruence; try lia.
Qed.

(** [t1 < t2] and [p >= t2] give [p >= t1]. *)
Lemma ge_lt_trans (p t1 t2 : num) :
  (t1 <? t2)%float = true -> ge p t2 = true -> ge p t1 = true.
Proof.
  unfold ge. rewrite FloatAxioms.ltb_spec, !FloatAxioms.leb_spec. apply SFltb_SFleb_trans.
Qed.

Lemma is_nan_spec (x : num) : is_nan x = true <-> Prim2SF x = S754_nan.
Proof.
  unfold is_nan. rewrite FloatAxioms.eqb_spec. unfold SFeqb.
  destruct (Prim2SF x) as [[]|[]| |[] m e]; simpl;
    rewrite ?Z.compare_refl; simpl;
    try change (Pos.compare_cont Eq m m) with (m ?= m)%positive;
    rewrite ?Pos.compare_refl; simpl; split; congruence.
Qed.

(** When neither side is [NaN], [a > b] is false exactly when [a <= b]. *)
Lemma not_gt_le (a b : num) :
  is_nan a = false -> is_nan b = false -> gt a b = false -> (a <=? b)%float = true.
Proof.
  intros Ha Hb. unfold gt. rewrite FloatAxioms.ltb_spec, FloatAxioms.leb_spec. unfold SFltb, SFleb.
  rewrite (SFcompare_antisym (Prim2SF a) (Prim2SF b)).
  assert (Prim2SF a <> S754_nan) as Ha' by (intros E; apply is_nan_spec in E; congruence).
  assert (Prim2SF b <> S754_nan) as Hb' by (intros E; apply is_nan_spec in E; congruence).
  destruct (SFcompare (Prim2SF a) (Prim2SF b)) as [[]|] eqn:Hc; simpl; try congruence.
  destruct (Prim2SF a) as [[]|[]| |[] m e], (Prim2SF b) as [[]|[]| |[] m' e'];
    simpl in Hc; congruence.
Qed.

Lemma SFcompare_Eq_inv (x y : spec_float) :
  SFcompare x y = Some Eq ->
  x = y \/ exists s s', x = S754_zero s /\ y = S754_zero s'.
Proof.
  destruct x as [sx|[]| |[] mx ex], y as [sy|[]| |[] my ey]; simpl; try congruence; eauto.
  all: destruct (Z.compare_spec ex ey); try congruence.
  all: change (Pos.compare_cont Eq mx my) with (mx ?= my)%positive.
  all: destruct (Pos.compare_spec mx my); simpl; try congruence.
  all: intros _; left; congruence.
Qed.

Lemma Prim2SF_zero_inv (a : num) (s : bool) :
  Prim2SF a = S754_zero s -> a = if s then neg_zero else zero.
Proof.
  intros H. rewrite <- (SF2Prim_Prim2SF a), H. by destruct s.
Qed.

(** Numerically equal numbers are identical or both zeros. *)
Lemma compare_FEq_inv (a b : num) :
  (a ?= b)%float = FEq ->
  a = b \/ (a = zero \/ a = neg_zero) /\ (b = zero \/ b = neg_zero).
Proof.
  rewrite FloatAxioms.compare_spec.
  destruct (SFcompare (Prim2SF a) (Prim2SF b)) as [[]|] eqn:Hc; simpl; try congruence.
  intros _. destruct (SFcompare_Eq_inv _ _ Hc) as [H|(s & s' & Ha & Hb)].
  - left. by apply Prim2SF_inj.
  - right. apply Prim2SF_zero_inv in Ha, Hb. destruct s, s'; auto.
Qed.

Lemma compare_swap (a b : num) :
  (b ?= a)%float = match (a ?= b)%float with
                   | FLt => FGt | FGt => FLt | c => c
                   end.
Proof.
  rewrite !FloatAxioms.compare_spec, (SFcompare_antisym (Prim2SF a) (Prim2SF b)).
  by destruct (SFcompare (Prim2SF a) (Prim2SF b)) as [[]|].
Qed.

Lemma Math_max_comm (a b : num) : Math_max a b = Math_max b a.
Proof.
  unfold Math_max. rewrite (compare_swap a b).
  destruct (a ?= b)%float eqn:Hc; try done.
  by destruct (compare_FEq_inv _ _ Hc) as [->|[[-> | ->] [-> | ->]]].
Qed.

Lemma Math_min_comm (a b : num) : Math_min a b = Math_min b a.
Proof.
  unfold Math_min. rewrite (compare_swap a b).
  destruct (a ?= b)%float eqn:Hc; try done.
  by destruct (compare_FEq_inv _ _ Hc) as [->|[[-> | ->] [-> | ->]]].
Qed.

Lemma add_comm (a b : num) : (a + b)%float = (b + a)%float.
Proof.
  apply Prim2SF_inj. rewrite !FloatAxioms.add_spec. unfold SF64add, SFadd.
  destruct (Prim2SF a) as [[]|[]| |sx mx ex], (Prim2SF b) as [[]|[]| |sy my ey]; try done.
  by rewrite (Z.min_comm ex ey), Z.add_comm.
Qed.





Lemma Prim2SF_nan_inv (x : num) : Prim2SF x = S754_nan -> x = nan.
Proof. intros H. by apply Prim2SF_inj. Qed.

Lemma SFcompare_refl (x : spec_float) :
  x <> S754_nan -> SFcompare x x = Some Eq.
Proof.
  destruct x as [[]|[]| |[] m e]; simpl; try done;
    rewrite Z.compare_refl;
    change (Pos.compare_cont Eq m m) with (m ?= m)%positive;
    by rewrite Pos.compare_refl.
Qed.

Lemma compare_refl (x : num) :
  (x ?= x)%float = FEq \/ x = nan /\ (x ?= x)%float = FNotComparable.
Proof.
  rewrite FloatAxioms.compare_spec.
  destruct (Prim2SF x) as [s|s| |s m e] eqn:Hx;
    [left; by rewrite SFcompare_refl..|right; by auto using Prim2SF_nan_inv|
     left; by rewrite SFcompare_refl].
Qed.





Lemma ge_nan_l (t : num) : ge nan t = false.
Proof.
  unfold ge. rewrite FloatAxioms.leb_spec. change (Prim2SF nan) with S754_nan.
  unfold SFleb. by destruct (Prim2SF t) as [[]|[]| |[] m e].
Qed.






(** Inside [0, hi], clamping returns its argument, a [-0] as [+0]. *)
Lemma clamp_inside (c hi : num) :
  ge c 0 = true -> ge hi c = true ->
  Math_max (Math_min c hi) 0 = c
  \/ c = neg_zero /\ Math_max (Math_min c hi) 0 = zero.
Proof.
  unfold ge. intros Hlo Hhi.
  assert ((c ?= 0)%float = FGt \/ (c ?= 0)%float = FEq) as Hc0.
  { rewrite (compare_swap 0%float c), FloatAxioms.compare_spec.
    rewrite FloatAxioms.leb_spec in Hlo. unfold SFleb in Hlo.
    destruct (SFcompare (Prim2SF 0) (Prim2SF c)) as [[]|]; simpl; auto; congruence. }
  assert (Math_max c 0 = c \/ c = neg_zero /\ Math_max c 0 = zero) as Hmax.
  { unfold Math_max. destruct Hc0 as [-> | ->]; [by left|].
    destruct (Leibniz.eqb c neg_zero) eqn:E; [|by left].
    right. by apply Leibniz.eqb_spec in E. }
  assert ((c ?= hi)%float = FLt \/ (c ?= hi)%float = FEq) as Hch.
  { rewrite FloatAxioms.compare_spec.
    rewrite FloatAxioms.leb_spec in Hhi. unfold SFleb in Hhi.
    destruct (SFcompare (Prim2SF c) (Prim2SF hi)) as [[]|]; simpl; auto; congruence. }
  unfold Math_min. destruct Hch as [-> | Hch]; [exact Hmax|]. rewrite Hch.
  destruct (compare_FEq_inv _ _ Hch) as [<- | [[-> | ->] [-> | ->]]]; auto.
  by destruct (Leibniz.eqb c neg_zero).
Qed.

Lemma gt_nan_r (x : num) : gt x nan = false.
Proof. unfold gt. by rewrite FloatAxioms.ltb_spec. Qed.

Lemma gt_infinity_r (x : num) : gt x infinity = false.
Proof.
  unfold gt. rewrite FloatAxioms.ltb_spec.
  change (Prim2SF infinity) with (S754_infinity false).
  unfold SFltb. by destruct (Prim2SF x) as [[]|[]| |[] m e].
Qed.

Lemma ge_nan_r (x : num) : ge x nan = false.
Proof. unfold ge. by rewrite FloatAxioms.leb_spec. Qed.

(** *** Exact scalings *)

(** A valid finite binary64 is subnormal-scaled (exponent -1074) or has
    a full 53-bit mantissa. *)
Lemma bounded_inv (m : positive) (e : Z) :
  bounded prec emax m e = true ->
  ((e = -1074 /\ Z.pos (digits2_pos m) <= 53) \/ (Z.pos (digits2_pos m) = 53 /\ -1074 < e))%Z
  /\ (e <= 971)%Z.
Proof.
  unfold bounded, canonical_mantissa, fexp, SpecFloat.emin, prec, emax.
  intros [H1 H2]%andb_prop. apply Z.eqb_eq in H1. apply Z.leb_le in H2.
  lia.
Qed.

Lemma div_eucl_unique (a b q0 r0 : Z) :
  (0 <= r0 < b)%Z -> (a = b * q0 + r0)%Z -> Z.div_eucl a b = (q0, r0).
Proof.
  intros Hb Ha. pose proof (Z_div_mod a b ltac:(lia)) as H.
  destruct (Z.div_eucl a b) as [q r]. destruct H as [H1 H2].
  assert (q = q0) by nia. subst. f_equal. lia.
Qed.

Lemma div_eucl_exact (a b q0 : Z) :
  (0 < b)%Z -> (a = b * q0)%Z -> Z.div_eucl a b = (q0, 0%Z).
Proof. intros. apply div_eucl_unique; lia. Qed.

(** [SpecFloat] is stated over [IntDef.Z]; fold its operations into the
    ones [lia] knows. *)
Ltac zfold :=
  change IntDef.Z.add with Z.add in *; change IntDef.Z.sub with Z.sub in *;
  change IntDef.Z.max with Z.max in *; change IntDef.Z.min with Z.min in *;
  change IntDef.Z.leb with Z.leb in *; change IntDef.Z.mul with Z.mul in *;
  change IntDef.Z.opp with Z.opp in *.

(** Run the mantissa shifts of the rounding step. *)
Ltac shr_step :=
  cbn [shr shr_record_of_loc round_nearest_even shr_m loc_of_shr_record
       Zdigits2 SpecFloat.iter_pos shr_1 shr_r shr_s orb].

(** The shift amount of the next rounding step is [k]. *)
Ltac shr_amount k :=
  match goal with
  | |- context [shr _ _ ?n] => replace n with k by lia
  end.

(** Division by 1 is exact on every binary64 value. *)
Lemma SFdiv_one (x : spec_float) :
  valid_binary x = true -> SF64div x (Prim2SF 1) = x.
Proof.
  change (Prim2SF 1) with (S754_finite false 4503599627370496 (-52)).
  destruct x as [[]|[]| |s m e]; try done.
  simpl. intros [Hc He]%bounded_inv.
  unfold SF64div, SFdiv, SFdiv_core_binary.
  rewrite xorb_false_r.
  change (Zdigits2 (Z.pos m)) with (Z.pos (digits2_pos m)).
  change (Zdigits2 4503599627370496) with 53%Z.
  set (d := Z.pos (digits2_pos m)) in *.
  unfold fexp, SpecFloat.emin, prec, emax. zfold.
  destruct Hc as [[-> Hd]|[Hd Hlo]].
  - match goal with |- context [Z.min ?a ?b] =>
      replace (Z.min a b) with (-1074)%Z by lia end.
    change (-1074 - -52 - -1074)%Z with 52%Z. cbv iota.
    rewrite (div_eucl_exact _ _ (Z.pos m)); [|lia|by rewrite Z.shiftl_mul_pow2; lia].
    change (new_location 4503599627370496 0) with loc_Exact.
    unfold binary_round_aux, shr_fexp.
    change (Zdigits2 (Z.pos m)) with d.
    unfold fexp, SpecFloat.emin. zfold.
    shr_amount 0%Z. shr_step.
    change (Z.pos (digits2_pos m)) with d.
    shr_amount 0%Z.
    shr_step. done.
  - match goal with |- context [Z.min ?a ?b] =>
      replace (Z.min a b) with (e - 1)%Z by lia end.
    replace (e - -52 - (e - 1))%Z with 53%Z by lia.
    cbv iota.
    rewrite (div_eucl_exact _ _ (Z.pos m~0)); [|lia|by rewrite Z.shiftl_mul_pow2; lia].
    change (new_location 4503599627370496 0) with loc_Exact.
    unfold binary_round_aux, shr_fexp.
    change (Zdigits2 (Z.pos m~0)) with (Z.pos (Pos.succ (digits2_pos m))).
    rewrite Pos2Z.inj_succ. fold d.
    unfold fexp, SpecFloat.emin. zfold.
    shr_amount 1%Z. shr_step.
    change (Z.pos (digits2_pos m)) with d.
    shr_amount 0%Z.
    shr_step. replace (e - 1 + 1)%Z with e by lia.
    by replace (e <=? 1024 - 53)%Z with true by lia.
Qed.

Lemma div_one (x : num) : (x / 1)%float = x.
Proof.
  apply Prim2SF_inj. rewrite FloatAxioms.div_spec. apply SFdiv_one, Prim2SF_valid.
Qed.

(** Multiplying by 0.5 and dividing by 2 round alike, subnormals included. *)
Lemma SFmul_half_div_two (x : spec_float) :
  valid_binary x = true -> SF64mul x (Prim2SF 0.5) = SF64div x (Prim2SF 2).
Proof.
  change (Prim2SF 0.5) with (S754_finite false 4503599627370496 (-53)).
  change (Prim2SF 2) with (S754_finite false 4503599627370496 (-51)).
  destruct x as [[]|[]| |s m e]; try done.
  simpl. intros [Hc He]%bounded_inv.
  unfold SF64mul, SFmul, SF64div, SFdiv, SFdiv_core_binary.
  rewrite xorb_false_r.
  change (Zdigits2 (Z.pos m)) with (Z.pos (digits2_pos m)).
  change (Zdigits2 4503599627370496) with 53%Z.
  unfold binary_round_aux at 1. unfold shr_fexp at 1.
  rewrite (Pos.mul_comm m).
  match goal with |- context [Z.pos (?c * m)] =>
    let t := eval cbv in (c * m)%positive in change (c * m)%positive with t end.
  cbn [Zdigits2 digits2_pos]. rewrite !Pos2Z.inj_succ.
  set (d := Z.pos (digits2_pos m)) in *.
  unfold fexp, SpecFloat.emin, prec, emax. zfold.
  destruct Hc as [[-> Hd]|[Hd Hlo]].
  - shr_amount 53%Z.
    match goal with |- context [Z.min ?a ?b] =>
      replace (Z.min a b) with (-1074)%Z by lia end.
    change (-1074 - -51 - -1074)%Z with 51%Z. cbv iota.
    change (-1074 + -53 + 53)%Z with (-1074)%Z.
    assert (forall q l, (Zdigits2 q + 1 <= d)%Z ->
              shr_fexp 53 1024 q (-1074) l = (shr_record_of_loc q l, (-1074)%Z)) as Hshr.
    { intros q l Hq. unfold shr_fexp, fexp, SpecFloat.emin. zfold.
      shr_amount 0%Z. done. }
    unfold binary_round_aux. subst d. destruct m as [p|p|].
    + rewrite (div_eucl_unique _ _ (Z.pos p) 2251799813685248);
        [|lia|by rewrite Z.shiftl_mul_pow2; lia].
      change (new_location 4503599627370496 2251799813685248) with (loc_Inexact Eq).
      rewrite Hshr by (cbn [Zdigits2 digits2_pos]; lia). by shr_step.
    + rewrite (div_eucl_exact _ _ (Z.pos p)); [|lia|by rewrite Z.shiftl_mul_pow2; lia].
      change (new_location 4503599627370496 0) with loc_Exact.
      rewrite Hshr by (cbn [Zdigits2 digits2_pos]; lia). by shr_step.
    + reflexivity.
  - shr_amount 52%Z. shr_step.
    replace (e + -53 + 52)%Z with (e - 1)%Z by lia.
    unfold shr_fexp at 1. cbn [Zdigits2]. fold d.
    unfold fexp, SpecFloat.emin. zfold.
    shr_amount 0%Z. shr_step.
    replace (e - 1 <=? 1024 - 53)%Z with true by lia.
    destruct (Z.eq_dec e (-1073)%Z) as [->|Hne].
    + match goal with |- context [Z.min ?a ?b] =>
        replace (Z.min a b) with (-1074)%Z by lia end.
      change (-1073 - -51 - -1074)%Z with 52%Z. cbv iota.
      rewrite (div_eucl_exact _ _ (Z.pos m)); [|lia|by rewrite Z.shiftl_mul_pow2; lia].
      change (new_location 4503599627370496 0) with loc_Exact.
      unfold binary_round_aux, shr_fexp.
      cbn [Zdigits2]. fold d.
      unfold fexp, SpecFloat.emin. zfold.
      shr_amount 0%Z. shr_step. fold d.
      shr_amount 0%Z. shr_step. done.
    + match goal with |- context [Z.min ?a ?b] =>
        replace (Z.min a b) with (e - 2)%Z by lia end.
      replace (e - -51 - (e - 2))%Z with 53%Z by lia. cbv iota.
      rewrite (div_eucl_exact _ _ (Z.pos m~0)); [|lia|by rewrite Z.shiftl_mul_pow2; lia].
      change (new_location 4503599627370496 0) with loc_Exact.
      unfold binary_round_aux, shr_fexp.
      cbn [Zdigits2 digits2_pos]. rewrite Pos2Z.inj_succ. fold d.
      unfold fexp, SpecFloat.emin. zfold.
      shr_amount 1%Z. shr_step. fold d.
      shr_amount 0%Z. shr_step.
      replace (e - 2 + 1)%Z with (e - 1)%Z by lia.
      by replace (e - 1 <=? 1024 - 53)%Z with true by lia.
Qed.

Lemma mul_half_div_two (x : num) : (x * 0.5)%float = (x / 2)%float.
Proof.
  apply Prim2SF_inj. rewrite FloatAxioms.mul_spec, FloatAxioms.div_spec. apply SFmul_half_div_two, Prim2SF_valid.
Qed.

End NumFacts.

(** *** The order the comparator of line 188 induces *)

Module NumOrder.

Import NumFacts.

(** A positive with [d] binary digits lies in [2^(d-1), 2^d). *)
Lemma digits2_pos_bounds (m : positive) :
  (2 ^ (Z.pos (digits2_pos m) - 1) <= Z.pos m < 2 ^ Z.pos (digits2_pos m))%Z.
Proof.
  induction m as [m IH|m IH|]; cbn [digits2_pos]; [| |done].
  - rewrite Pos2Z.inj_succ, Z.pow_succ_r by lia.
    replace (Z.succ (Z.pos (digits2_pos m)) - 1)%Z
      with (Z.succ (Z.pos (digits2_pos m) - 1)) by lia.
    rewrite Z.pow_succ_r by lia. lia.
  - rewrite Pos2Z.inj_succ, Z.pow_succ_r by lia.
    replace (Z.succ (Z.pos (digits2_pos m)) - 1)%Z
      with (Z.succ (Z.pos (digits2_pos m) - 1)) by lia.
    rewrite Z.pow_succ_r by lia. lia.
Qed.

Lemma shr_1_m (mrs : shr_record) :
  (0 <= shr_m mrs)%Z -> shr_m (shr_1 mrs) = Z.div2 (shr_m mrs).
Proof. destruct mrs as [[|[p|p|]|p] r s]; simpl; try done; lia. Qed.

Lemma iter_shr_1_m (p : positive) (mrs : shr_record) :
  (0 <= shr_m mrs)%Z ->
  shr_m (SpecFloat.iter_pos shr_1 p mrs) = Z.shiftr (shr_m mrs) (Z.pos p).
Proof.
  revert mrs. induction p as [p IH|p IH|]; intros mrs Hm; cbn [SpecFloat.iter_pos].
  - assert (0 <= shr_m (shr_1 mrs))%Z as H1
      by (rewrite shr_1_m, Z.div2_spec by done; by apply Z.shiftr_nonneg).
    assert (0 <= shr_m (SpecFloat.iter_pos shr_1 p (shr_1 mrs)))%Z as H2
      by (rewrite IH by done; by apply Z.shiftr_nonneg).
    rewrite !IH, shr_1_m, Z.div2_spec, !Z.shiftr_shiftr by lia.
    f_equal. lia.
  - assert (0 <= shr_m (SpecFloat.iter_pos shr_1 p mrs))%Z as H2
      by (rewrite IH by done; by apply Z.shiftr_nonneg).
    rewrite !IH, !Z.shiftr_shiftr by lia. f_equal. lia.
  - by rewrite shr_1_m, Z.div2_spec.
Qed.

(** Rounding a positive mantissa at an exponent in range keeps it
    positive, and keeps the exponent in range. *)
Lemma shr_fexp_pos (m : positive) (e : Z) (l : location) :
  (-1074 <= e)%Z ->
  exists p r s e',
    shr_fexp prec emax (Z.pos m) e l = (Build_shr_record (Z.pos p) r s, e')
    /\ (-1074 <= e')%Z.
Proof.
  intros He. unfold shr_fexp, shr.
  pose proof (digits2_pos_bounds m) as Hd.
  cbn [Zdigits2]. set (d := Z.pos (digits2_pos m)) in *.
  unfold fexp, SpecFloat.emin, prec, emax. zfold.
  destruct (Z.max (d + e - 53) (3 - 1024 - 53) - e)%Z as [|n|n] eqn:Hn.
  - destruct l as [|[]]; simpl; eauto 10.
  - assert (Z.pos n = d - 53)%Z as Hnd by lia.
    set (rec := shr_record_of_loc (Z.pos m) l).
    assert (shr_m rec = Z.pos m) as Hrec by (by destruct l as [|[]]).
    pose proof (iter_shr_1_m n rec ltac:(rewrite Hrec; lia)) as Hit.
    rewrite Hrec, Z.shiftr_div_pow2 in Hit by lia.
    assert (2 ^ 52 <= Z.pos m / 2 ^ Z.pos n)%Z as Hlow.
    { apply Z.div_le_lower_bound; [lia|].
      rewrite <- Z.pow_add_r by lia.
      replace (Z.pos n + 52)%Z with (d - 1)%Z by lia. lia. }
    destruct (SpecFloat.iter_pos shr_1 n rec) as [[|q|q] r s]; simpl in Hit;
      [lia| |lia].
    exists q, r, s, (e + Z.pos n)%Z. split; [done|lia].
  - destruct l as [|[]]; simpl; eauto 10.
Qed.

Lemma shr_fexp_pos' (m e : Z) (l : location) :
  (0 < m)%Z -> (-1074 <= e)%Z ->
  exists p r s e',
    shr_fexp prec emax m e l = (Build_shr_record (Z.pos p) r s, e')
    /\ (-1074 <= e')%Z.
Proof. destruct m; try lia. intros _. apply shr_fexp_pos. Qed.

Lemma round_nearest_even_pos (m : Z) (l : location) :
  (0 < m)%Z -> (0 < round_nearest_even m l)%Z.
Proof.
  intros Hm. unfold round_nearest_even.
  destruct l as [|[]]; try done; try lia.
  zfold. destruct (IntDef.Z.even m); lia.
Qed.

Lemma binary_round_aux_sign (s : bool) (m : positive) (e : Z) (l : location) :
  (-1074 <= e)%Z ->
  (exists m' e', binary_round_aux prec emax s (Z.pos m) e l = S754_finite s m' e')
  \/ binary_round_aux prec emax s (Z.pos m) e l = S754_infinity s.
Proof.
  intros He. unfold binary_round_aux.
  destruct (shr_fexp_pos m e l He) as (p & r & s1 & e1 & -> & He1).
  cbn [shr_m].
  destruct (shr_fexp_pos' (round_nearest_even (Z.pos p)
              (loc_of_shr_record (Build_shr_record (Z.pos p) r s1))) e1 loc_Exact)
    as (q & r2 & s2 & e2 & -> & He2); [by apply round_nearest_even_pos|done|].
  cbn [shr_m]. destruct (e2 <=? emax - prec)%Z; eauto.
Qed.

Lemma binary_round_sign (s : bool) (m : positive) (e : Z) :
  (-1074 <= e)%Z ->
  (exists m' e', binary_round prec emax s m e = S754_finite s m' e')
  \/ binary_round prec emax s m e = S754_infinity s.
Proof.
  intros He. unfold binary_round, shl_align.
  set (e' := fexp prec emax (Z.pos (digits2_pos m) + e)).
  assert (-1074 <= e')%Z
    by (unfold e', fexp, SpecFloat.emin, prec, emax; zfold; lia).
  destruct (e' - e)%Z; by apply binary_round_aux_sign.
Qed.

(** The sign of a normalised integer is the sign of the integer. *)
Lemma binary_normalize_gt_zero (m e : Z) (sz : bool) :
  (-1074 <= e)%Z ->
  SFltb (S754_zero false) (binary_normalize prec emax m e sz) = (0 <? m)%Z.
Proof.
  intros He. unfold binary_normalize. destruct m as [|p|p]; [done| |].
  - by destruct (binary_round_sign false p e He) as [(m' & e' & ->)| ->].
  - by destruct (binary_round_sign true p e He) as [(m' & e' & ->)| ->].
Qed.

Lemma iter_xO (m d : positive) :
  Z.pos (PosDef.Pos.iter xO m d) = (Z.pos m * 2 ^ Z.pos d)%Z.
Proof.
  change (@PosDef.Pos.iter) with (@Pos.iter).
  induction d as [|d IH] using Pos.peano_ind.
  - simpl. lia.
  - rewrite Pos.iter_succ, Pos2Z.inj_succ, Z.pow_succ_r by lia.
    rewrite Pos2Z.inj_xO, IH. lia.
Qed.

Lemma shl_align_value (m : positive) (e e' : Z) :
  (e' <= e)%Z -> Z.pos (fst (shl_align m e e')) = (Z.pos m * 2 ^ (e - e'))%Z.
Proof.
  intros He. unfold shl_align.
  destruct (e' - e)%Z as [|d|d] eqn:Hd; [| lia |].
  - replace (e - e')%Z with 0%Z by lia. simpl. lia.
  - replace (e - e')%Z with (Z.pos d) by lia. cbn [fst]. apply iter_xO.
Qed.

(** Among two valid positive finite numbers, the larger exponent wins,
    and on equal exponents the larger mantissa. *)
Lemma aligned_compare (m1 m2 : positive) (e1 e2 : Z) :
  bounded prec emax m1 e1 = true -> bounded prec emax m2 e2 = true ->
  let ez := Z.min e1 e2 in
  (Z.pos (fst (shl_align m1 e1 ez)) ?= Z.pos (fst (shl_align m2 e2 ez)))%Z
  = match (e1 ?= e2)%Z with
    | Eq => PosDef.Pos.compare_cont Eq m1 m2
    | Lt => Lt
    | Gt => Gt
    end.
Proof.
  intros [H1 _]%bounded_inv [H2 _]%bounded_inv ez.
  pose proof (digits2_pos_bounds m1) as B1.
  pose proof (digits2_pos_bounds m2) as B2.
  rewrite !shl_align_value by lia.
  assert (forall d : positive, Z.pos d <= 53 -> forall m, m < 2 ^ Z.pos d -> m < 2 ^ 53)%Z as Hup.
  { intros d Hd m Hm. eapply Z.lt_le_trans; [done|]. apply Z.pow_le_mono_r; lia. }
  assert (forall k, 1 <= k -> 2 <= 2 ^ k)%Z as Hpow.
  { intros k Hk. change 2%Z with (2 ^ 1)%Z at 1. apply Z.pow_le_mono_r; lia. }
  destruct (Z.compare_spec e1 e2) as [He|He|He].
  - subst e2. replace (e1 - ez)%Z with 0%Z by lia.
    rewrite Z.pow_0_r, !Z.mul_1_r. done.
  - replace (e1 - ez)%Z with 0%Z by lia. rewrite Z.pow_0_r, Z.mul_1_r.
    apply Z.compare_lt_iff.
    destruct H2 as [[-> _]|[H2 _]]; [lia|]. rewrite H2 in B2.
    assert (Z.pos m1 < 2 ^ 53)%Z
      by (destruct H1 as [[_ H1]|[H1 _]]; [apply (Hup _ H1), B1|rewrite H1 in B1; lia]).
    specialize (Hpow (e2 - ez)%Z ltac:(lia)).
    change (53 - 1)%Z with 52%Z in B2.
    change (2 ^ 53)%Z with (2 * 2 ^ 52)%Z in *. nia.
  - replace (e2 - ez)%Z with 0%Z by lia. rewrite Z.pow_0_r, Z.mul_1_r.
    apply Z.compare_gt_iff.
    destruct H1 as [[-> _]|[H1 _]]; [lia|]. rewrite H1 in B1.
    assert (Z.pos m2 < 2 ^ 53)%Z
      by (destruct H2 as [[_ H2]|[H2 _]]; [apply (Hup _ H2), B2|rewrite H2 in B2; lia]).
    specialize (Hpow (e1 - ez)%Z ltac:(lia)).
    change (53 - 1)%Z with 52%Z in B1.
    change (2 ^ 53)%Z with (2 * 2 ^ 52)%Z in *. nia.
Qed.

(** The difference of two numbers is positive exactly if the first is
    the larger one. *)
Lemma SFsub_gt_zero (x y : spec_float) :
  valid_binary x = true -> valid_binary y = true ->
  x <> S754_nan -> y <> S754_nan ->
  SFltb (S754_zero false) (SFsub prec emax x y) = SFltb y x.
Proof.
  intros Vx Vy Hx Hy.
  destruct x as [sx|sx| |sx mx ex], y as [sy|sy| |sy my ey]; try done;
    try (by destruct sx, sy); try (by destruct sx); try (by destruct sy).
  cbn [SFsub]. zfold.
  assert (-1074 <= Z.min ex ey)%Z as He.
  { simpl in Vx, Vy. apply bounded_inv in Vx, Vy. lia. }
  rewrite binary_normalize_gt_zero by done.
  simpl in Vx, Vy.
  pose proof (aligned_compare mx my ex ey Vx Vy) as Hc. cbn zeta in Hc.
  pose proof (aligned_compare my mx ey ex Vy Vx) as Hc'. cbn zeta in Hc'.
  rewrite (Z.min_comm ey ex) in Hc'.
  set (X := Z.pos (fst (shl_align mx ex (Z.min ex ey)))) in *.
  set (Y := Z.pos (fst (shl_align my ey (Z.min ex ey)))) in *.
  unfold SFltb, SFcompare.
  destruct sx, sy; cbn [cond_Zopp].
  - replace (match (ey ?= ex)%Z with
             | Eq => CompOpp (PosDef.Pos.compare_cont Eq my mx)
             | Lt => Gt
             | Gt => Lt
             end) with (CompOpp (Y ?= X)%Z)
      by (rewrite Hc'; by destruct (ey ?= ex)%Z).
    destruct (Z.compare_spec Y X), (Z.ltb_spec 0 (- X - - Y));
      simpl; try done; lia.
  - destruct (Z.ltb_spec 0 (- X - Y)); [lia|done].
  - destruct (Z.ltb_spec 0 (X - - Y)); [done|lia].
  - rewrite <- Hc'. destruct (Z.compare_spec Y X), (Z.ltb_spec 0 (X - Y));
      simpl; try done; lia.
Qed.

(** [b - a > 0] is [b > a] when neither is [NaN]: the subtraction
    never rounds a nonzero difference to zero. *)
Lemma sub_gt_zero (a b : num) :
  is_nan a = false -> is_nan b = false -> gt (b - a) 0 = gt b a.
Proof.
  intros Ha Hb. unfold gt.
  rewrite !FloatAxioms.ltb_spec, FloatAxioms.sub_spec.
  change (Prim2SF 0) with (S754_zero false).
  apply SFsub_gt_zero; try apply Prim2SF_valid.
  - intros E. apply is_nan_spec in E. congruence.
  - intros E. apply is_nan_spec in E. congruence.
Qed.

Lemma SFleb_trans (x y z : spec_float) :
  SFleb x y = true -> SFleb y z = true -> SFleb x z = true.
Proof.
  unfold SFleb.
  destruct x as [[]|[]| |[] mx ex], y as [[]|[]| |[] my ey], z as [[]|[]| |[] mz ez];
    simpl; try congruence.
  all: change (Pos.compare_cont Eq ?a ?b) with (a ?= b)%positive.
  all: repeat match goal with
       | |- context [(?a ?= ?b)%Z] => destruct (Z.compare_spec a b); simpl
       | |- context [(?a ?= ?b)%positive] => destruct (Pos.compare_spec a b); simpl
       end; try congruence; try lia.
Qed.

Lemma ge_trans (a b c : num) : ge a b = true -> ge b c = true -> ge a c = true.
Proof.
  unfold ge. rewrite !FloatAxioms.leb_spec. intros H1 H2. by eapply SFleb_trans.
Qed.

Lemma gt_ge (a b : num) : gt a b = true -> ge a b = true.
Proof.
  unfold gt, ge. rewrite FloatAxioms.ltb_spec, FloatAxioms.leb_spec.
  unfold SFltb, SFleb. by destruct (SFcompare _ _) as [[]|].
Qed.

Lemma ge_not_gt (a b : num) : ge a b = true -> gt b a = false.
Proof.
  unfold gt, ge. rewrite FloatAxioms.ltb_spec, FloatAxioms.leb_spec.
  unfold SFltb, SFleb. rewrite (SFcompare_antisym (Prim2SF a) (Prim2SF b)).
  by destruct (SFcompare (Prim2SF a) (Prim2SF b)) as [[]|].
Qed.

(** What is at least something is not [NaN]. *)
Lemma ge_not_nan (a t : num) : ge a t = true -> is_nan a = false.
Proof.
  intros H. destruct (is_nan a) eqn:E; [|done].
  apply is_nan_spec, Prim2SF_nan_inv in E. subst. by rewrite ge_nan_l in H.
Qed.

Lemma leb_compare (a b : num) :
  (a <=? b)%float = match (a ?= b)%float with
                    | FLt | FEq => true
                    | _ => false
                    end.
Proof.
  rewrite FloatAxioms.leb_spec, FloatAxioms.compare_spec. unfold SFleb.
  by destruct (SFcompare _ _) as [[]|].
Qed.

Lemma compare_comparable (a b : num) :
  is_nan a = false -> is_nan b = false -> (a ?= b)%float <> FNotComparable.
Proof.
  intros Ha Hb. rewrite FloatAxioms.compare_spec.
  assert (Prim2SF a <> S754_nan) as Ha' by (intros E; apply is_nan_spec in E; congruence).
  assert (Prim2SF b <> S754_nan) as Hb' by (intros E; apply is_nan_spec in E; congruence).
  destruct (Prim2SF a) as [[]|[]| |[] m e], (Prim2SF b) as [[]|[]| |[] m' e'];
    try done; simpl;
    repeat match goal with
    | |- context [match ?c with Eq => _ | Lt => _ | Gt => _ end] => destruct c
    end; done.
Qed.

Lemma ge_refl (a : num) : is_nan a = false -> ge a a = true.
Proof.
  intros Ha. unfold ge. rewrite leb_compare.
  destruct (compare_refl a) as [-> | [-> _]]; done.
Qed.

(** Clamping puts every number that is not [NaN] into [0, hi]. *)
Lemma clamp_bounds (c hi : num) :
  is_nan c = false -> ge hi 0 = true ->
  ge (Math_max (Math_min c hi) 0) 0 = true
  /\ ge hi (Math_max (Math_min c hi) 0) = true.
Proof.
  intros Hc Hhi.
  pose proof (ge_not_nan _ _ Hhi) as Hn.
  assert (ge hi (Math_min c hi) = true /\ is_nan (Math_min c hi) = false) as [Hy Hyn].
  { unfold Math_min. pose proof (compare_comparable c hi Hc Hn) as Hcmp.
    pose proof (leb_compare c hi) as Hle.
    destruct (c ?= hi)%float.
    - destruct (Leibniz.eqb hi neg_zero); [by split; [apply ge_refl|]|by split].
    - by split.
    - by split; [apply ge_refl|].
    - done. }
  set (y := Math_min c hi) in *.
  unfold Math_max. pose proof (compare_comparable y 0%float Hyn eq_refl) as Hcmp.
  assert (ge y 0 = match (y ?= 0)%float with
                   | FGt | FEq => true
                   | _ => false
                   end) as Hge.
  { unfold ge. rewrite leb_compare, (compare_swap y 0%float). by destruct (y ?= 0)%float. }
  destruct (y ?= 0)%float.
  - destruct (Leibniz.eqb y neg_zero); by split.
  - by split.
  - by split.
  - done.
Qed.


(** *** Where a [-0] can come from *)

Lemma binary_normalize_not_neg_zero (m e : Z) :
  (-1074 <= e)%Z -> binary_normalize prec emax m e false <> S754_zero true.
Proof.
  intros He. unfold binary_normalize. destruct m as [|p|p]; [done| |].
  - by destruct (binary_round_sign false p e He) as [(m' & e' & ->)| ->].
  - by destruct (binary_round_sign true p e He) as [(m' & e' & ->)| ->].
Qed.

Lemma SFadd_neg_zero (x y : spec_float) :
  valid_binary x = true -> valid_binary y = true ->
  SFadd prec emax x y = S754_zero true -> x = S754_zero true /\ y = S754_zero true.
Proof.
  intros Vx Vy.
  destruct x as [[]|sx| |sx mx ex], y as [[]|sy| |sy my ey]; try done;
    try (by destruct sx); try (by destruct sx, sy).
  cbn [SFadd]. zfold. intros H. exfalso. revert H.
  apply binary_normalize_not_neg_zero.
  simpl in Vx, Vy. apply bounded_inv in Vx, Vy. lia.
Qed.

Lemma SFsub_neg_zero (x y : spec_float) :
  valid_binary x = true -> valid_binary y = true ->
  SFsub prec emax x y = S754_zero true -> x = S754_zero true.
Proof.
  intros Vx Vy.
  destruct x as [[]|sx| |sx mx ex], y as [[]|sy| |sy my ey]; try done;
    try (by destruct sx); try (by destruct sy); try (by destruct sx, sy).
  cbn [SFsub]. zfold. intros H. exfalso. revert H.
  apply binary_normalize_not_neg_zero.
  simpl in Vx, Vy. apply bounded_inv in Vx, Vy. lia.
Qed.

(** A sum is [-0] only if both terms are, and a difference only if its
    first term is: a sum or difference that cancels is [+0]. *)
Lemma add_neg_zero (x y : num) :
  (x + y)%float = neg_zero -> x = neg_zero /\ y = neg_zero.
Proof.
  intros H. apply (f_equal Prim2SF) in H. rewrite FloatAxioms.add_spec in H.
  change (Prim2SF neg_zero) with (S754_zero true) in H.
  apply SFadd_neg_zero in H as [Hx Hy]; try apply Prim2SF_valid.
  by apply (Prim2SF_zero_inv _ true) in Hx, Hy.
Qed.

Lemma sub_neg_zero (x y : num) : (x - y)%float = neg_zero -> x = neg_zero.
Proof.
  intros H. apply (f_equal Prim2SF) in H. rewrite FloatAxioms.sub_spec in H.
  change (Prim2SF neg_zero) with (S754_zero true) in H.
  apply SFsub_neg_zero in H; try apply Prim2SF_valid.
  by apply (Prim2SF_zero_inv _ true) in H.
Qed.

Lemma eqb_refl (c : num) : is_nan c = false -> (c =? c)%float = true.
Proof. unfold is_nan. by intros ->%negb_false_iff. Qed.

End NumOrder.

(** ** The builtins and the pipeline on concrete inputs *)

Example Math_round_ties :
  Math_round <$> [0.5; -0.5; 2.5; -2.5; 0.25; -0.25; 3; -0; 4503599627370497]%float
  = [1; -0; 3; -2; 0; -0; 3; -0; 4503599627370497]%float.
Proof. reflexivity. Qed.

Example Math_max_min_zeros :
  (Math_max 0 (-0), Math_max (-0) 0, Math_min 0 (-0), Math_min (-0) 0, Math_max nan 1)
  = (0, 0, -0, -0, nan)%float.
Proof. reflexivity. Qed.

Example Math_exp_fixed (exp_impl : num -> num) :
  Math_exp exp_impl <$> [0; -0; nan; infinity; neg_infinity]%float
  = [1; 1; nan; infinity; 0]%float.
Proof. reflexivity. Qed.

(** The anchors of the three strides. *)
Example generateAnchors_strides :
  generateAnchors 16 [1%float] [32; 16]%float
  = [Some (mkRect (-248) (-248) 264 264); Some (mkRect (-120) (-120) 136 136)]
  ∧ generateAnchors 16 [1%float] [8; 4]%float
    = [Some (mkRect (-56) (-56) 72 72); Some (mkRect (-24) (-24) 40 40)]
  ∧ generateAnchors 16 [1%float] [2; 1]%float
    = [Some (mkRect (-8) (-8) 24 24); Some (mkRect 0 0 16 16)].
Proof. repeat split; reflexivity. Qed.

(** Of two candidates of IoU 0.6 (the binary64 nearest to it), a
    threshold of 0.5 keeps the first. *)
Example nmsSortedBboxes_overlap :
  iou (sampleFace 0 0 10 10 0x1.ccccccp-1) (sampleFace 0 0 10 6 0.75)
  = 0x1.3333333333333p-1%float
  ∧ nmsSortedBboxes sampleFaces 0.5 = Ok [0; 2].
Proof. split; reflexivity. Qed.

(** Sorting by descending prob is stable. *)
Example js_sort_descending :
  js_sort (fun a b => (prob b - prob a)%float)
    [sampleFace 0 0 1 1 0.5; sampleFace 0 0 2 2 0.75; sampleFace 0 0 3 3 0.75]
  = [sampleFace 0 0 2 2 0.75; sampleFace 0 0 3 3 0.75; sampleFace 0 0 1 1 0.5].
Proof. reflexivity. Qed.

(** ** The loops *)

Lemma foldR_app {S A} (body : S -> A -> Result S) (xs ys : list A) (s : S) :
  foldR body (xs ++ ys) s = bindR (foldR body xs s) (foldR body ys).
Proof.
  revert s. induction xs as [|x xs IH]; intros s; simpl; [done|].
  destruct (body s x); simpl; auto.
Qed.

Lemma for_loop_S {S} (n : nat) (body : nat -> S -> S) (s : S) :
  for_loop (Datatypes.S n) body s = body n (for_loop n body s).
Proof. unfold for_loop. by rewrite seq_S, fold_left_app. Qed.

Lemma for_loop_ind {S} (P : nat -> S -> Prop) (n : nat) (body : nat -> S -> S) (s : S) :
  P 0 s ->
  (forall i x, i < n -> P i x -> P (Datatypes.S i) (body i x)) ->
  P n (for_loop n body s).
Proof.
  intros H0 Hstep.
  assert (forall k, k ≤ n -> P k (for_loop k body s)) as H; [|by apply H].
  induction k as [|k IH]; intros Hk; [done|].
  rewrite for_loop_S. apply Hstep; [lia|]. apply IH. lia.
Qed.

(** Two loops of the same length, run side by side. *)
Lemma for_loop_ind2 {S1 S2} (R : S1 -> S2 -> Prop) (n : nat)
    (body1 : nat -> S1 -> S1) (body2 : nat -> S2 -> S2) (s1 : S1) (s2 : S2) :
  R s1 s2 ->
  (forall i x y, i < n -> R x y -> R (body1 i x) (body2 i y)) ->
  R (for_loop n body1 s1) (for_loop n body2 s2).
Proof.
  intros H0 Hstep.
  assert (forall k, k ≤ n -> R (for_loop k body1 s1) (for_loop k body2 s2)) as H;
    [|by apply H].
  induction k as [|k IH]; intros Hk; [done|].
  rewrite !for_loop_S. apply Hstep; [lia|]. apply IH. lia.
Qed.

Lemma foldR_inv {S A} (P : S -> Prop) (body : S -> A -> Result S) (xs : list A) (s0 s : S) :
  P s0 ->
  (forall x y y', x ∈ xs -> P y -> body y x = Ok y' -> P y') ->
  foldR body xs s0 = Ok s -> P s.
Proof.
  revert s0. induction xs as [|x xs IH]; intros s0 H0 Hstep; simpl.
  - by intros [= <-].
  - destruct (body s0 x) as [s1|e] eqn:Hb; simpl; [|done].
    apply IH; [eapply Hstep; eauto; by left|].
    intros x' y y' Hx'. apply Hstep. by right.
Qed.

(** Two folds over the same list: when every step of the first that
    succeeds is matched by the second, so is the whole run. *)
Lemma foldR_sim {S1 S2 A} (R : S1 -> S2 -> Prop)
    (body1 : S1 -> A -> Result S1) (body2 : S2 -> A -> Result S2)
    (xs : list A) (s1 s1' : S1) (s2 : S2) :
  R s1 s2 ->
  (forall x y1 y2 y1', R y1 y2 -> body1 y1 x = Ok y1' ->
                       exists y2', body2 y2 x = Ok y2' ∧ R y1' y2') ->
  foldR body1 xs s1 = Ok s1' ->
  exists s2', foldR body2 xs s2 = Ok s2' ∧ R s1' s2'.
Proof.
  intros H0 Hstep. revert s1 s2 H0.
  induction xs as [|x xs IH]; intros s1 s2 H0; simpl.
  - intros [= <-]. eauto.
  - destruct (body1 s1 x) as [y1|e] eqn:Hb; simpl; [|done].
    destruct (Hstep _ _ _ _ H0 Hb) as (y2 & -> & HR). simpl. by apply IH.
Qed.

(** A fold throws only what one of its steps throws. *)
Lemma foldR_err {S A} (Q : Exn -> Prop) (body : S -> A -> Result S) (xs : list A) (s0 : S) (e : Exn) :
  (forall x y e', body y x = Err e' -> Q e') ->
  foldR body xs s0 = Err e -> Q e.
Proof.
  intros Hstep. revert s0. induction xs as [|x xs IH]; intros s0; simpl; [done|].
  destruct (body s0 x) as [s1|e'] eqn:Hb; simpl; [apply IH|].
  intros [= <-]. eauto.
Qed.

Lemma foldR_total {S A} (body : S -> A -> Result S) (xs : list A) (s0 : S) :
  (forall x y, x ∈ xs -> exists y', body y x = Ok y') ->
  exists s, foldR body xs s0 = Ok s.
Proof.
  revert s0. induction xs as [|x xs IH]; intros s0 Hstep; simpl; [eauto|].
  destruct (Hstep x s0 ltac:(by left)) as [s1 ->]. simpl.
  apply IH. intros x' y Hx'. apply Hstep. by right.
Qed.

(** ** Suppression engine *)

Section Suppression.

Variable faceObjects : list FaceObject.
Variable nmsThreshold : num.

Local Abbreviation picks := (greedyPick faceObjects nmsThreshold).
Local Abbreviation over := (exceeds faceObjects nmsThreshold).

Lemma nmsKeep_eq (i : nat) (picked : list nat) :
  i < length faceObjects ->
  Forall (fun j => j < length faceObjects) picked ->
  nmsKeep faceObjects (area <$> faceObjects) nmsThreshold i picked
  = Ok (forallb (fun j => negb (over i j)) picked).
Proof.
  intros Hi Hp. unfold nmsKeep.
  destruct (lookup_lt_is_Some_2 _ _ Hi) as [a Ha]. rewrite Ha.
  assert (forall keep, foldR (fun (keep : bool) j =>
      a0 ←R deref (Some a); b ←R deref (faceObjects !! j);
      Ok (if gt (interArea a0 b / (num_at (area <$> faceObjects) i
                 + num_at (area <$> faceObjects) j - interArea a0 b))%float nmsThreshold
          then false else keep)) picked keep
    = Ok (keep && forallb (fun j => negb (over i j)) picked)) as H.
  { induction Hp as [|j picked Hj Hp IH]; intros keep; simpl.
    - by rewrite andb_true_r.
    - destruct (lookup_lt_is_Some_2 _ _ Hj) as [b Hb]. rewrite Hb. simpl.
      rewrite IH. f_equal. unfold exceeds, num_at, iou.
      rewrite !list_lookup_fmap, Ha, Hb. simpl.
      destruct (gt _ _); simpl; [by rewrite andb_false_r | done]. }
  apply H.
Qed.

Lemma greedyPick_S (k : nat) :
  picks (S k) = if forallb (fun j => negb (over k j)) (picks k)
                then picks k ++ [k] else picks k.
Proof. done. Qed.

Lemma greedyPick_lt (k i : nat) : i ∈ picks k -> i < k.
Proof.
  induction k as [|k IH]; [by intros ?%elem_of_nil|].
  rewrite greedyPick_S. destruct (forallb _ _).
  - intros [?| ->%list_elem_of_singleton]%elem_of_app; [|lia].
    specialize (IH H). lia.
  - intros H. specialize (IH H). lia.
Qed.

Lemma greedyPick_prefix (k k' : nat) : k ≤ k' -> picks k `prefix_of` picks k'.
Proof.
  induction 1 as [|k' _ IH]; [done|].
  etrans; [exact IH|]. rewrite greedyPick_S.
  destruct (forallb _ _); [by apply prefix_app_r | done].
Qed.

(** Later iterations only append larger indices. *)
Lemma greedyPick_stable (k k' i : nat) :
  k ≤ k' -> i < k -> i ∈ picks k' <-> i ∈ picks k.
Proof.
  intros Hk Hi. split.
  - induction Hk as [|k' Hk IH]; [done|].
    rewrite greedyPick_S. destruct (forallb _ _); [|done].
    intros [?| ->%list_elem_of_singleton]%elem_of_app; [auto | lia].
  - destruct (greedyPick_prefix k k' Hk) as [l ->]. set_solver.
Qed.

Lemma greedyPick_picked_iff (k i : nat) :
  i < k ->
  i ∈ picks k <-> forall j, j ∈ picks k -> j < i -> over i j = false.
Proof.
  intros Hi.
  rewrite (greedyPick_stable (S i) k i) by lia.
  rewrite greedyPick_S.
  destruct (forallb _ _) eqn:Hall.
  - split; [|set_solver]. intros _ j Hj Hji.
    apply (greedyPick_stable i k j) in Hj; [|lia|lia].
    rewrite forallb_forall in Hall. apply list_elem_of_In, Hall in Hj.
    by destruct (over i j).
  - split.
    + intros Hin%greedyPick_lt. lia.
    + intros H. exfalso.
      assert (forallb (fun j => negb (over i j)) (picks i) = true) as Hc; [|congruence].
      apply forallb_forall. intros j Hj%list_elem_of_In.
      rewrite H; [done| |by eapply greedyPick_lt].
      apply (greedyPick_stable i k j); [lia|by eapply greedyPick_lt|done].
Qed.

Lemma greedyPick_sorted (k : nat) : StronglySorted lt (picks k).
Proof.
  induction k as [|k IH]; [constructor|].
  rewrite greedyPick_S. destruct (forallb _ _); [|done].
  apply StronglySorted_app_2; [|done|repeat constructor].
  intros i j Hi%greedyPick_lt ->%list_elem_of_singleton. done.
Qed.

(** The loop of [nmsSortedBboxes] computes [greedyPick] and never throws. *)
Lemma nmsSortedBboxes_eq :
  nmsSortedBboxes faceObjects nmsThreshold = Ok (picks (length faceObjects)).
Proof.
  unfold nmsSortedBboxes.
  assert (forall k, k ≤ length faceObjects ->
    foldR (fun picked i =>
      keep ←R nmsKeep faceObjects (area <$> faceObjects) nmsThreshold i picked;
      Ok (if keep : bool then picked ++ [i] else picked)) (seq 0 k) []
    = Ok (picks k)) as H; [|by apply H].
  induction k as [|k IH]; intros Hk; [done|].
  rewrite seq_S, foldR_app, IH by lia. simpl.
  rewrite nmsKeep_eq; [done|lia|].
  apply Forall_forall. intros j Hj%greedyPick_lt. lia.
Qed.

End Suppression.

Lemma interArea_comm (a b : FaceObject) : interArea a b = interArea b a.
Proof.
  unfold interArea.
  by rewrite !(NumFacts.Math_min_comm (_ (rect a))), !(NumFacts.Math_max_comm (_ (rect a))).
Qed.

(** The quotient does not depend on which candidate is scanned against
    which. *)
Lemma iou_comm (a b : FaceObject) : iou a b = iou b a.
Proof.
  unfold iou. by rewrite (interArea_comm a b), (NumFacts.add_comm (area a)).
Qed.

Lemma StronglySorted_lt_lookup (l : list nat) (p q i j : nat) :
  StronglySorted lt l -> l !! p = Some i -> l !! q = Some j -> p < q -> i < j.
Proof.
  intros Hs. revert p q. induction Hs as [|x l Hs IH Hx]; intros p q Hp Hq Hpq; [done|].
  destruct q as [|q]; [lia|]. destruct p as [|p]; simplify_eq/=.
  - rewrite Forall_forall in Hx. apply Hx. by eapply list_elem_of_lookup_2.
  - eapply IH; eauto with lia.
Qed.

(** If no candidate exceeds the threshold against an earlier one, the
    scan picks every index. *)
Lemma greedyPick_all (faceObjects : list FaceObject) (nmsThreshold : num) (k : nat) :
  (forall i j, j < i -> i < k -> exceeds faceObjects nmsThreshold i j = false) ->
  greedyPick faceObjects nmsThreshold k = seq 0 k.
Proof.
  induction k as [|k IH]; intros H; [done|].
  rewrite greedyPick_S, IH, seq_S by (intros; apply H; lia).
  replace (forallb _ _) with true; [done|]. symmetry.
  apply forallb_forall. intros j [_ Hj]%in_seq. rewrite H; [done|lia..].
Qed.

Lemma pickedCandidates_Forall2 (faceObjects : list FaceObject) (picked : list nat) :
  Forall (fun i => i < length faceObjects) picked ->
  Forall2 (fun i f => faceObjects !! i = Some f) picked
          (pickedCandidates faceObjects picked).
Proof.
  unfold pickedCandidates.
  induction 1 as [|i picked Hi _ IH]; simpl; [constructor|].
  destruct (lookup_lt_is_Some_2 _ _ Hi) as [f Hf]. rewrite Hf. simpl. by constructor.
Qed.

(** C1, as amended.  Any two distinct candidates that [nmsSortedBboxes]
    picks fail the test [IoU > nmsThreshold] of line 144; so their IoU is
    at most [nmsThreshold] whenever the quotient and the threshold are
    numbers.  (For two zero-area rects the quotient is 0/0, [NaN].) *)
Theorem nms_picked_not_over (faceObjects : list FaceObject) (nmsThreshold : num)
    (picked : list nat) (i j : nat) (a b : FaceObject) :
  nmsSortedBboxes faceObjects nmsThreshold = Ok picked ->
  i ∈ picked -> j ∈ picked -> i ≠ j ->
  faceObjects !! i = Some a -> faceObjects !! j = Some b ->
  gt (iou a b) nmsThreshold = false
  ∧ (is_nan (iou a b) = false -> is_nan nmsThreshold = false ->
     (iou a b <=? nmsThreshold)%float = true).
Proof.
  rewrite nmsSortedBboxes_eq. intros [= <-] Hi Hj Hij Ha Hb.
  assert (gt (iou a b) nmsThreshold = false) as Hgt.
  { pose proof (greedyPick_lt _ _ _ _ Hi) as Hin.
    pose proof (greedyPick_lt _ _ _ _ Hj) as Hjn.
    destruct (decide (j < i)) as [Hlt|Hge].
    - pose proof (proj1 (greedyPick_picked_iff _ _ _ _ Hin) Hi j Hj Hlt) as H.
      unfold exceeds in H. by rewrite Ha, Hb in H.
    - pose proof (proj1 (greedyPick_picked_iff _ _ _ _ Hjn) Hj i Hi ltac:(lia)) as H.
      unfold exceeds in H. rewrite Ha, Hb in H. by rewrite iou_comm. }
  split; [done|]. intros. by apply NumFacts.not_gt_le.
Qed.

Lemma nms_picked_not_over_witness :
  nmsSortedBboxes sampleFaces 0.5%float = Ok [0; 2]
  ∧ gt (iou (sampleFace 0 0 10 10 0x1.ccccccp-1) (sampleFace 20 20 30 30 0.5)) 0.5%float = false
  ∧ (iou (sampleFace 0 0 10 10 0x1.ccccccp-1) (sampleFace 20 20 30 30 0.5) <=? 0.5)%float = true.
Proof.
  split; [reflexivity|].
  destruct (nms_picked_not_over sampleFaces 0.5%float [0; 2] 0 2
              (sampleFace 0 0 10 10 0x1.ccccccp-1) (sampleFace 20 20 30 30 0.5))
    as [H1 H2]; try reflexivity.
  - apply list_elem_of_here.
  - apply list_elem_of_further, list_elem_of_here.
  - lia.
  - split; [exact H1 | apply H2; reflexivity].
Defined.

(** C1 as stated fails: two candidates on the same point rect are
    well-formed and both picked, and their IoU, 0/0, is not at most the
    threshold. *)
Lemma nms_point_rects_overlap :
  wellFormed pointFace
  ∧ nmsSortedBboxes [pointFace; pointFace] 0.5%float = Ok [0; 1]
  ∧ (iou pointFace pointFace <=? 0.5)%float = false.
Proof. repeat split; reflexivity. Qed.

(** C9.  Suppression is idempotent: run on the candidates it picked, with
    the same threshold, the engine picks every one of them. *)
Theorem nms_idempotent (faceObjects : list FaceObject) (nmsThreshold : num)
    (picked : list nat) :
  nmsSortedBboxes faceObjects nmsThreshold = Ok picked ->
  length (pickedCandidates faceObjects picked) = length picked
  ∧ nmsSortedBboxes (pickedCandidates faceObjects picked) nmsThreshold
    = Ok (seq 0 (length picked)).
Proof.
  rewrite nmsSortedBboxes_eq. intros [= <-].
  set (n := length faceObjects). set (picked := greedyPick faceObjects nmsThreshold n).
  assert (Forall2 (fun i f => faceObjects !! i = Some f) picked
            (pickedCandidates faceObjects picked)) as HF.
  { apply pickedCandidates_Forall2, Forall_forall. by intros i Hi%greedyPick_lt. }
  pose proof (Forall2_length _ _ _ HF) as Hlen.
  split; [done|].
  rewrite nmsSortedBboxes_eq, <- Hlen. f_equal.
  apply greedyPick_all. intros k' j' Hjk Hk.
  destruct (lookup_lt_is_Some_2 picked k' ltac:(lia)) as [i Hi].
  destruct (lookup_lt_is_Some_2 picked j' ltac:(lia)) as [j Hj].
  destruct (Forall2_lookup_l _ _ _ _ _ HF Hi) as (a & Ha & Hia).
  destruct (Forall2_lookup_l _ _ _ _ _ HF Hj) as (b & Hb & Hjb).
  unfold exceeds. rewrite Ha, Hb.
  assert (j < i) as Hlt.
  { eapply StronglySorted_lt_lookup; [apply greedyPick_sorted|exact Hj|exact Hi|done]. }
  apply list_elem_of_lookup_2 in Hi, Hj.
  pose proof (greedyPick_lt _ _ _ _ Hi) as Hin.
  pose proof (proj1 (greedyPick_picked_iff _ _ _ _ Hin) Hi j Hj Hlt) as H.
  unfold exceeds in H. by rewrite Hia, Hjb in H.
Qed.

Lemma nms_idempotent_witness :
  nmsSortedBboxes sampleFaces 0.5%float = Ok [0; 2]
  ∧ length (pickedCandidates sampleFaces [0; 2]) = 2
  ∧ nmsSortedBboxes (pickedCandidates sampleFaces [0; 2]) 0.5%float = Ok [0; 1].
Proof.
  split; [reflexivity|].
  apply (nms_idempotent sampleFaces 0.5%float [0; 2]). reflexivity.
Defined.






(** ** Anchor generator *)

Lemma js_set_end {A} (arr : JsArray A) (v : A) :
  js_set arr (length arr) v = arr ++ [Some v].
Proof.
  unfold js_set. destruct (decide _) as [?|_]; [lia|].
  by rewrite Nat.sub_diag.
Qed.

(** The inner loop of [generateAnchors] appends one anchor per scale. *)
Lemma anchors_inner_loop {A} (box : nat -> A) (base m : nat) (arr : JsArray A) :
  length arr = base ->
  for_loop m (fun j anchors => js_set anchors (base + j) (box j)) arr
  = arr ++ ((fun j => Some (box j)) <$> seq 0 m).
Proof.
  intros Hlen. induction m as [|m IH].
  - by rewrite app_nil_r.
  - rewrite for_loop_S, IH, seq_S, fmap_app, app_assoc. simpl.
    rewrite <- js_set_end. f_equal.
    rewrite length_app, length_fmap, length_seq. lia.
Qed.

(** C5.  [generateAnchors] returns exactly R×S anchors, and the anchor at
    index [ratio_index * S + scale_index] is the centered box of the
    specification for that ratio and that scale. *)
Theorem generateAnchors_spec (baseSize : num) (ratios scales : list num) :
  length (generateAnchors baseSize ratios scales) = length ratios * length scales
  ∧ forall (i j : nat) (ar s : num),
      ratios !! i = Some ar -> scales !! j = Some s ->
      generateAnchors baseSize ratios scales !! (i * length scales + j)
      = Some (Some (anchorBox baseSize ar s)).
Proof.
  unfold generateAnchors. cbv zeta.
  set (S := length scales).
  set (box := fun i j => anchorBox baseSize (num_at ratios i) (num_at scales j)).
  match goal with |- context [for_loop (length ratios) ?b []] => set (body := b) end.
  assert (forall n,
    let arr := for_loop n body [] in
    length arr = n * S
    ∧ forall i j, i < n -> j < S -> arr !! (i * S + j) = Some (Some (box i j))) as H.
  { induction n as [|n [IHlen IH]]; [by split; [|lia]|].
    intros arr. subst arr. rewrite for_loop_S.
    assert (exists f, body n (for_loop n body [])
                      = for_loop n body [] ++ ((fun j => Some (f j)) <$> seq 0 S)
                      /\ forall j, f j = box n j) as (f & -> & Hf).
    { eexists. split; [unfold body at 1; by apply anchors_inner_loop|].
      intros j. unfold box, anchorBox. by rewrite !NumFacts.mul_half_div_two. }
    split.
    - rewrite length_app, length_fmap, length_seq. lia.
    - intros i j Hi Hj. destruct (decide (i = n)) as [->|Hne].
      + rewrite lookup_app_r by lia.
        replace (n * S + j - _) with j by lia.
        rewrite list_lookup_fmap, lookup_seq_lt by done. simpl.
        by rewrite Hf.
      + rewrite lookup_app_l by nia. apply IH; lia. }
  destruct (H (length ratios)) as [Hlen Hget]. split; [done|].
  intros i j ar s Hi Hj. rewrite Hget.
  - unfold box, num_at. by rewrite Hi, Hj.
  - by eapply lookup_lt_Some.
  - by eapply lookup_lt_Some.
Qed.

Lemma generateAnchors_spec_witness :
  length (generateAnchors 16%float [1%float] [32%float; 16%float]) = 2
  ∧ generateAnchors 16%float [1%float] [32%float; 16%float] !! 1
    = Some (Some (mkRect (-120) (-120) 136 136)).
Proof.
  destruct (generateAnchors_spec 16%float [1%float] [32%float; 16%float]) as [H1 H2].
  split; [exact H1|]. exact (H2 0 1 1%float 16%float eq_refl eq_refl).
Defined.


(** ** Proposal decoder *)

Section DecoderFacts.

Variable exp_impl : num -> num.
Variables score bbox landmark : list num.

(** A score that passes the threshold was read inside the buffer. *)
Lemma num_at_ge (k : nat) (t : num) :
  ge (num_at score k) t = true -> score !! k = Some (num_at score k).
Proof.
  unfold num_at. destruct (score !! k) as [p|]; [done|]. simpl.
  by rewrite NumFacts.ge_nan_l.
Qed.

Lemma decodeRow_decoded (w : nat) (featStride probThreshold : num)
    (scoreOffset bboxOffset landmarkOffset offset : nat)
    (anchorY anchorW anchorH : num) (i : nat) (st : num * list FaceObject) :
  Forall (decodedFrom exp_impl score bbox landmark probThreshold) st.2 ->
  Forall (decodedFrom exp_impl score bbox landmark probThreshold)
    (decodeRow exp_impl w featStride probThreshold score bbox landmark
       scoreOffset bboxOffset landmarkOffset offset anchorY anchorW anchorH i st).2.
Proof.
  intros H. unfold decodeRow.
  apply (for_loop_ind (fun _ st => Forall _ st.2)); [done|].
  intros j [anchorX faces] _ Hf. simpl in *.
  destruct (ge _ _) eqn:Hge; [|done].
  apply Forall_app. split; [done|]. apply Forall_singleton.
  do 10 eexists. split; [by eapply num_at_ge|]. split; [exact Hge|done].
Qed.

Lemma decodeAnchor_decoded (anchors : JsArray Rect) (w h : nat)
    (featStride probThreshold : num) (faces faces' : list FaceObject) (q : nat) :
  Forall (decodedFrom exp_impl score bbox landmark probThreshold) faces ->
  decodeAnchor exp_impl anchors w h featStride probThreshold score bbox landmark faces q
  = Ok faces' ->
  Forall (decodedFrom exp_impl score bbox landmark probThreshold) faces'.
Proof.
  intros H. unfold decodeAnchor.
  destruct (js_get anchors q) as [anchor|]; simpl; [|done].
  match goal with |- context [for_loop h ?b ?s0] =>
    pose proof (for_loop_ind
      (fun _ st => Forall (decodedFrom exp_impl score bbox landmark probThreshold) st.2)
      h b s0 H) as Hloop
  end.
  destruct (for_loop h _ _) as [anchorY out]. intros [= <-]. apply Hloop.
  intros i [y fs] _ Hfs. simpl in *.
  match goal with |- context [decodeRow ?e ?w ?fs ?t ?s ?b ?l ?so ?bo ?lo ?o ?ay ?aw ?ah ?i ?st] =>
    pose proof (decodeRow_decoded w fs t so bo lo o ay aw ah i st Hfs) as Hrow
  end.
  by destruct (decodeRow _ _ _ _ _ _ _ _ _ _ _ _ _ _ _ _).
Qed.

End DecoderFacts.

(** Every candidate of [generateProposals] is decoded from the three
    buffers at a cell whose in-range score passed the threshold. *)
Lemma generateProposals_decoded (exp_impl : num -> num) (anchors : JsArray Rect)
    (featStride : num) (scoreT bboxT landmarkT : option Tensor) (probThreshold : num)
    (faces : list FaceObject) :
  generateProposals exp_impl anchors featStride scoreT bboxT landmarkT probThreshold
  = Ok faces ->
  exists sT bT lT,
    scoreT = Some sT ∧ bboxT = Some bT ∧ landmarkT = Some lT
    ∧ Forall (decodedFrom exp_impl (getData sT) (getData bT) (getData lT) probThreshold)
        faces.
Proof.
  unfold generateProposals.
  destruct bboxT as [bT|], scoreT as [sT|], landmarkT as [lT|]; simpl; try done.
  intros H. exists sT, bT, lT. repeat split.
  eapply (foldR_inv _ _ _ _ _ (Forall_nil_2 _)); [|exact H].
  intros q y y' _ Hy. by apply decodeAnchor_decoded.
Qed.

(** The decoder throws nothing but a [TypeError]. *)
Lemma generateProposals_err (exp_impl : num -> num) (anchors : JsArray Rect)
    (featStride : num) (scoreT bboxT landmarkT : option Tensor) (probThreshold : num)
    (e : Exn) :
  generateProposals exp_impl anchors featStride scoreT bboxT landmarkT probThreshold
  = Err e -> e = TypeError.
Proof.
  unfold generateProposals.
  destruct bboxT as [bT|], scoreT as [sT|], landmarkT as [lT|]; simpl; try congruence.
  apply (foldR_err (fun e => e = TypeError)). intros q y e'. unfold decodeAnchor.
  destruct (js_get anchors q) as [anchor|]; simpl; [|congruence].
  by destruct (for_loop _ _ _).
Qed.


(** *** Threshold monotonicity *)

Section Monotone.

Variable exp_impl : num -> num.
Variables t1 t2 : num.
Hypothesis Hlt : (t1 <? t2)%float = true.

Lemma decodeRow_monotone (w : nat) (featStride : num) (score bbox landmark : list num)
    (scoreOffset bboxOffset landmarkOffset offset : nat)
    (anchorY anchorW anchorH : num) (i : nat) (st1 st2 : num * list FaceObject) :
  walkLe st1 st2 ->
  walkLe
    (decodeRow exp_impl w featStride t1 score bbox landmark
       scoreOffset bboxOffset landmarkOffset offset anchorY anchorW anchorH i st1)
    (decodeRow exp_impl w featStride t2 score bbox landmark
       scoreOffset bboxOffset landmarkOffset offset anchorY anchorW anchorH i st2).
Proof.
  intros H. unfold decodeRow. apply for_loop_ind2; [done|].
  intros j [x1 fs1] [x2 fs2] _ [Hx Hfs]. simpl in *. subst x2.
  split; [done|]. simpl.
  destruct (ge _ t2) eqn:H2.
  - rewrite (NumFacts.ge_lt_trans _ _ _ Hlt H2). by apply sublist_app.
  - destruct (ge _ t1); [by apply sublist_inserts_r | done].
Qed.

Lemma decodeAnchor_monotone (anchors : JsArray Rect) (w h : nat) (featStride : num)
    (score bbox landmark : list num) (q : nat) (fs1 fs2 fs1' : list FaceObject) :
  fs2 `sublist_of` fs1 ->
  decodeAnchor exp_impl anchors w h featStride t1 score bbox landmark fs1 q = Ok fs1' ->
  exists fs2',
    decodeAnchor exp_impl anchors w h featStride t2 score bbox landmark fs2 q = Ok fs2'
    ∧ fs2' `sublist_of` fs1'.
Proof.
  intros H. unfold decodeAnchor.
  destruct (js_get anchors q) as [anchor|]; simpl; [|done].
  match goal with
  | |- context [for_loop h ?b1 ?s1] =>
    match goal with
    | |- context [ex (fun _ => (let '(_, _) := for_loop h ?b2 ?s2 in _) = _ ∧ _)] =>
      assert (walkLe (for_loop h b1 s1) (for_loop h b2 s2)) as Hloop
    end
  end.
  { apply for_loop_ind2; [done|].
    intros i [y1 g1] [y2 g2] _ [Hy Hg]. simpl in *. subst y2.
    match goal with
    | |- context [decodeRow _ _ _ t1 ?sc ?bb ?lm ?so ?bo ?lo ?o ?ay ?aw ?ah ?i ?st1] =>
      pose proof (decodeRow_monotone w featStride sc bb lm so bo lo o ay aw ah i
                    st1 (r0 anchor, g2) (conj eq_refl Hg)) as [_ Hrow]
    end.
    do 2 destruct (decodeRow _ _ _ _ _ _ _ _ _ _ _ _ _ _ _ _). by split. }
  do 2 destruct (for_loop h _ _). destruct Hloop as [_ Hloop].
  intros [= <-]. eauto.
Qed.

End Monotone.

(** C8.  Threshold monotonicity: on the same tensors, the candidates the
    decoder produces at a threshold [t2] above [t1] are among those it
    produces at [t1], in the same order, so there are no more of them. *)
Theorem generateProposals_monotone (exp_impl : num -> num) (anchors : JsArray Rect)
    (featStride : num) (scoreT bboxT landmarkT : option Tensor) (t1 t2 : num)
    (faces1 : list FaceObject) :
  (t1 <? t2)%float = true ->
  generateProposals exp_impl anchors featStride scoreT bboxT landmarkT t1 = Ok faces1 ->
  exists faces2,
    generateProposals exp_impl anchors featStride scoreT bboxT landmarkT t2 = Ok faces2
    ∧ faces2 `sublist_of` faces1
    ∧ (forall f, f ∈ faces2 -> f ∈ faces1)
    ∧ length faces2 ≤ length faces1.
Proof.
  intros Hlt. unfold generateProposals.
  destruct bboxT as [bT|], scoreT as [sT|], landmarkT as [lT|]; simpl; try done.
  intros H.
  eapply (foldR_sim (fun fs1 fs2 => fs2 `sublist_of` fs1) _
            (decodeAnchor exp_impl anchors (default 0 (dims bT !! 3))
               (default 0 (dims bT !! 2)) featStride t2
               (getData sT) (getData bT) (getData lT))
            _ _ _ []) in H as (faces2 & H2 & Hsub);
    [|done|intros q y1 y2 y1'; by apply decodeAnchor_monotone].
  exists faces2. repeat split; [done|done| |by apply sublist_length].
  intros f Hf. by eapply elem_of_sublist.
Qed.

Lemma generateProposals_monotone_witness :
  (0.5 <? 0.75)%float = true
  ∧ exists faces2,
      generateProposals exp_sample sampleAnchors 16
        (Some sampleScoreT) (Some sampleBboxT) (Some sampleLandmarkT) 0.75 = Ok faces2
      ∧ length faces2 ≤ 2.
Proof.
  split; [reflexivity|].
  destruct (generateProposals_monotone exp_sample sampleAnchors 16%float
              (Some sampleScoreT) (Some sampleBboxT) (Some sampleLandmarkT)
              0.5%float 0.75%float _ eq_refl eq_refl) as (faces2 & H & _ & _ & Hlen).
  exists faces2. split; [exact H | exact Hlen].
Defined.

(** *** What holds of every decoded candidate *)

Section DecoderInvariant.

Variable exp_impl : num -> num.
Variables score bbox landmark : list num.
Variable Q : FaceObject -> Prop.

Lemma decodeRow_inv (w : nat) (featStride probThreshold : num)
    (scoreOffset bboxOffset landmarkOffset offset : nat)
    (anchorY anchorW anchorH : num) (i : nat) (st : num * list FaceObject) :
  Forall Q st.2 ->
  (forall j anchorX p,
     j < w -> score !! (scoreOffset + (i * w + j)) = Some p ->
     ge p probThreshold = true ->
     Q (decodeCell exp_impl anchorX anchorY anchorW anchorH bbox landmark
          bboxOffset landmarkOffset (i * w + j) offset p)) ->
  Forall Q
    (decodeRow exp_impl w featStride probThreshold score bbox landmark
       scoreOffset bboxOffset landmarkOffset offset anchorY anchorW anchorH i st).2.
Proof.
  intros H HQ. unfold decodeRow.
  apply (for_loop_ind (fun _ st => Forall Q st.2)); [done|].
  intros j [anchorX faces] Hj Hf. simpl in *.
  destruct (ge _ _) eqn:Hge; [|done].
  apply Forall_app. split; [done|]. apply Forall_singleton.
  apply HQ; [done| |done]. by eapply num_at_ge.
Qed.

Lemma decodeAnchor_inv (anchors : JsArray Rect) (w h : nat)
    (featStride probThreshold : num) (faces faces' : list FaceObject) (q : nat) :
  Forall Q faces ->
  (forall anchor i j anchorX anchorY p,
     js_get anchors q = Some anchor -> i < h -> j < w ->
     score !! ((q + length anchors) * (w * h) + (i * w + j)) = Some p ->
     ge p probThreshold = true ->
     Q (decodeCell exp_impl anchorX anchorY
          (r2 anchor - r0 anchor)%float (r3 anchor - r1 anchor)%float bbox landmark
          (q * 4 * (w * h)) (q * 10 * (w * h)) (i * w + j) (w * h) p)) ->
  decodeAnchor exp_impl anchors w h featStride probThreshold score bbox landmark faces q
  = Ok faces' ->
  Forall Q faces'.
Proof.
  intros H HQ. unfold decodeAnchor.
  destruct (js_get anchors q) as [anchor|]; simpl; [|done].
  match goal with |- context [for_loop h ?b ?s0] =>
    pose proof (for_loop_ind (fun _ st => Forall Q st.2) h b s0 H) as Hloop
  end.
  destruct (for_loop h _ _) as [anchorY out]. intros [= <-]. apply Hloop.
  intros i [y fs] Hi Hfs. simpl in *.
  match goal with |- context [decodeRow ?e ?w ?fs ?t ?s ?b ?l ?so ?bo ?lo ?o ?ay ?aw ?ah ?i ?st] =>
    pose proof (decodeRow_inv w fs t so bo lo o ay aw ah i st Hfs) as Hrow
  end.
  destruct (decodeRow _ _ _ _ _ _ _ _ _ _ _ _ _ _ _ _). apply Hrow.
  intros j anchorX p Hj Hp Hge. by apply HQ.
Qed.

End DecoderInvariant.

(** What holds of the candidate of every cell whose score passed holds
    of every candidate of [generateProposals]. *)
Lemma generateProposals_inv (Q : FaceObject -> Prop) (exp_impl : num -> num)
    (anchors : JsArray Rect) (featStride : num) (scoreT bboxT landmarkT : Tensor)
    (probThreshold : num) (faces : list FaceObject) :
  let w := default 0 (dims bboxT !! 3) in
  let h := default 0 (dims bboxT !! 2) in
  (forall q anchor i j anchorX anchorY p,
     js_get anchors q = Some anchor -> i < h -> j < w ->
     getData scoreT !! ((q + length anchors) * (w * h) + (i * w + j)) = Some p ->
     ge p probThreshold = true ->
     Q (decodeCell exp_impl anchorX anchorY
          (r2 anchor - r0 anchor)%float (r3 anchor - r1 anchor)%float
          (getData bboxT) (getData landmarkT)
          (q * 4 * (w * h)) (q * 10 * (w * h)) (i * w + j) (w * h) p)) ->
  generateProposals exp_impl anchors featStride
    (Some scoreT) (Some bboxT) (Some landmarkT) probThreshold = Ok faces ->
  Forall Q faces.
Proof.
  intros w h HQ. unfold generateProposals. simpl. fold w h. intros H.
  eapply (foldR_inv _ _ _ _ _ (Forall_nil_2 _)); [|exact H].
  intros q y y' _ Hy Hstep.
  eapply decodeAnchor_inv; [exact Hy| |exact Hstep].
  intros anchor i j anchorX anchorY p. apply HQ.
Qed.


(** *** Buffer lengths *)

Lemma decodedFrom_prob (exp_impl : num -> num) (score bbox landmark : list num)
    (probThreshold : num) (f : FaceObject) :
  decodedFrom exp_impl score bbox landmark probThreshold f ->
  prob f ∈ score ∧ ge (prob f) probThreshold = true.
Proof.
  intros (aX & aY & aW & aH & bo & lo & idx & off & k & p & Hk & Hge & ->). simpl.
  split; [by eapply list_elem_of_lookup_2 | done].
Qed.





(** *** Decode exactness *)

(** C6.  For the single anchor (0,0,16,16), stride 16, a 1×1 grid, a face
    score at or above the threshold and bbox deltas (0,0,0,0), the decoder
    produces exactly one candidate; its rect is the anchor, (0,0,16,16),
    and it is decoded about the center (8,8), as the landmarks show. *)
Theorem generateProposals_exact (exp_impl : num -> num) (background face : num)
    (landmark : list num) (probThreshold : num) :
  ge face probThreshold = true ->
  generateProposals exp_impl [Some (mkRect 0 0 16 16)] 16
    (Some (mkTensor [1; 2; 1; 1] [background; face]))
    (Some (mkTensor [1; 4; 1; 1] [0; 0; 0; 0]%float))
    (Some (mkTensor [1; 10; 1; 1] landmark)) probThreshold
  = Ok [ {| rect := mkRect 0 0 16 16;
            landmarks :=
              [ (8 + 17 * num_at landmark 0, 8 + 17 * num_at landmark 1);
                (8 + 17 * num_at landmark 2, 8 + 17 * num_at landmark 3);
                (8 + 17 * num_at landmark 4, 8 + 17 * num_at landmark 5);
                (8 + 17 * num_at landmark 6, 8 + 17 * num_at landmark 7);
                (8 + 17 * num_at landmark 8, 8 + 17 * num_at landmark 9) ]%float;
            prob := face |} ].
Proof.
  intros Hge. unfold generateProposals, decodeAnchor, decodeRow, for_loop. simpl.
  change (num_at [background; face] 1) with face. rewrite Hge. reflexivity.
Qed.

Lemma generateProposals_exact_witness :
  ge 0x1.ccccccp-1 0.75 = true
  ∧ generateProposals exp_sample [Some (mkRect 0 0 16 16)] 16
      (Some (mkTensor [1; 2; 1; 1] [0x1.99999ap-4; 0x1.ccccccp-1]%float))
      (Some (mkTensor [1; 4; 1; 1] [0; 0; 0; 0]%float))
      (Some (mkTensor [1; 10; 1; 1] (replicate 10 0%float))) 0.75
    = Ok [ {| rect := mkRect 0 0 16 16;
              landmarks := replicate 5 (8%float, 8%float);
              prob := 0x1.ccccccp-1%float |} ].
Proof.
  split; [reflexivity|].
  exact (generateProposals_exact exp_sample 0x1.99999ap-4%float 0x1.ccccccp-1%float
           (replicate 10 0%float) 0.75%float eq_refl).
Defined.

(** ** The detector *)

Lemma processStride_err (exp_impl : num -> num) (acceptsArguments : nat -> bool)
    (results : gmap string Tensor)
    (faceProposals : list FaceObject) (probThreshold : num) (stride : nat)
    (scales : list num) (e : Exn) :
  processStride exp_impl acceptsArguments results faceProposals probThreshold stride scales
  = Err e ->
  e = TypeError ∨ e = RangeError.
Proof.
  unfold processStride, push_spread.
  destruct (generateProposals _ _ _ _ _ _ _) as [proposals|e'] eqn:H; simpl.
  - destruct (acceptsArguments _); [done|]. intros [= <-]. by right.
  - intros [= <-]. left. by eapply generateProposals_err.
Qed.

Lemma processStride_scored (exp_impl : num -> num) (acceptsArguments : nat -> bool)
    (results : gmap string Tensor)
    (faceProposals faceProposals' : list FaceObject) (probThreshold : num)
    (stride : nat) (scales : list num) :
  stride ∈ strides ->
  Forall (scoredBy results probThreshold) faceProposals ->
  processStride exp_impl acceptsArguments results faceProposals probThreshold stride scales
  = Ok faceProposals' ->
  Forall (scoredBy results probThreshold) faceProposals'.
Proof.
  intros Hstride Hold. unfold processStride, push_spread.
  destruct (generateProposals _ _ _ _ _ _ _) as [proposals|] eqn:H; simpl; [|done].
  destruct (acceptsArguments _); [|done].
  intros [= <-]. apply Forall_app. split; [done|].
  apply generateProposals_decoded in H as (sT & bT & lT & Hs & _ & _ & Hall).
  eapply Forall_impl; [exact Hall|]. intros f [Hin Hge]%decodedFrom_prob.
  split; [done|]. eauto.
Qed.

Lemma sortInsert_elem_of {A} (cmp : A -> A -> num) (x y : A) (l : list A) :
  y ∈ sortInsert cmp x l <-> y = x ∨ y ∈ l.
Proof.
  induction l as [|z l IH]; simpl.
  - rewrite list_elem_of_singleton, elem_of_nil. tauto.
  - destruct (gt _ _); rewrite !elem_of_cons, ?IH; tauto.
Qed.

(** Sorting keeps the elements. *)
Lemma js_sort_elem_of {A} (cmp : A -> A -> num) (y : A) (l : list A) :
  y ∈ js_sort cmp l <-> y ∈ l.
Proof.
  unfold js_sort. induction l as [|x l IH]; simpl; [done|].
  by rewrite sortInsert_elem_of, elem_of_cons, IH.
Qed.

Lemma mapR_Forall2 {A B} (f : A -> Result B) (xs : list A) (ys : list B) :
  mapR f xs = Ok ys -> Forall2 (fun x y => f x = Ok y) xs ys.
Proof.
  revert ys. induction xs as [|x xs IH]; intros ys; simpl.
  - intros [= <-]. constructor.
  - destruct (f x) as [y|] eqn:Hy; simpl; [|done].
    destruct (mapR f xs) as [ys'|]; simpl; [|done].
    intros [= <-]. constructor; auto.
Qed.

Lemma mapR_err {A B} (Q : Exn -> Prop) (f : A -> Result B) (xs : list A) (e : Exn) :
  (forall x e', f x = Err e' -> Q e') -> mapR f xs = Err e -> Q e.
Proof.
  intros Hf. induction xs as [|x xs IH]; simpl; [done|].
  destruct (f x) as [y|e'] eqn:Hy; simpl; [|intros [= <-]; eauto].
  destruct (mapR f xs) as [ys'|]; simpl; [done|].
  intros [= <-]. by apply IH.
Qed.

(** ** Coordinate rescaler *)

Lemma rescale_landmarks_one (l : list (num * num)) :
  (fun landmark : num * num => ((landmark.1 / 1)%float, (landmark.2 / 1)%float)) <$> l = l.
Proof.
  induction l as [|[x y] l IH]; [done|]. rewrite fmap_cons, IH. simpl.
  by rewrite !NumFacts.div_one.
Qed.

(** A coordinate that is kept up to the sign of zero is the same
    number. *)
Lemma unsignedZero_sameNumber (c c' : num) :
  ge c 0 = true -> unsignedZero c c' -> sameNumber c' c.
Proof.
  intros Hc%NumOrder.ge_not_nan [-> | [-> ->]]; [|done].
  by apply NumOrder.eqb_refl.
Qed.

(** A decoded coordinate is [-0] only if half the anchor's extent is: the
    center is a sum with it, and no sum or difference of the decoder
    yields [-0] from another term. *)
Lemma decodeCell_noNegZero (exp_impl : num -> num) (anchorX anchorY anchorW anchorH : num)
    (bbox landmark : list num) (bboxOffset landmarkOffset index offset : nat) (p : num) :
  (anchorW * 0.5)%float ≠ neg_zero -> (anchorH * 0.5)%float ≠ neg_zero ->
  noNegZero (rect (decodeCell exp_impl anchorX anchorY anchorW anchorH bbox landmark
                     bboxOffset landmarkOffset index offset p)).
Proof.
  intros HW HH. unfold decodeCell, noNegZero. cbn [rect r0 r1 r2 r3].
  repeat split; intros H.
  - apply NumOrder.sub_neg_zero, NumOrder.add_neg_zero in H as [H _].
    by apply NumOrder.add_neg_zero in H as [_ H].
  - apply NumOrder.sub_neg_zero, NumOrder.add_neg_zero in H as [H _].
    by apply NumOrder.add_neg_zero in H as [_ H].
  - apply NumOrder.add_neg_zero in H as [H _].
    apply NumOrder.add_neg_zero in H as [H _].
    by apply NumOrder.add_neg_zero in H as [_ H].
  - apply NumOrder.add_neg_zero in H as [H _].
    apply NumOrder.add_neg_zero in H as [H _].
    by apply NumOrder.add_neg_zero in H as [_ H].
Qed.

(** The anchors of [detect]'s three strides have extents 512 down to 16,
    so none of their proposals has a [-0] coordinate. *)
Lemma processStride_noNegZero (exp_impl : num -> num) (acceptsArguments : nat -> bool)
    (results : gmap string Tensor)
    (faceProposals faceProposals' : list FaceObject) (probThreshold : num)
    (stride : nat) (scales : list num) :
  (stride, scales) ∈ strideScales ->
  Forall (fun f => noNegZero (rect f)) faceProposals ->
  processStride exp_impl acceptsArguments results faceProposals probThreshold stride scales
  = Ok faceProposals' ->
  Forall (fun f => noNegZero (rect f)) faceProposals'.
Proof.
  intros Hs Hold. unfold processStride, push_spread.
  destruct (generateProposals _ _ _ _ _ _ _) as [proposals|] eqn:H; simpl; [|done].
  destruct (acceptsArguments _); [|done].
  intros [= <-]. apply Forall_app. split; [done|].
  pose proof H as (sT & bT & lT & Hs1 & Hs2 & Hs3 & _)%generateProposals_decoded.
  rewrite Hs1, Hs2, Hs3 in H.
  apply (generateProposals_inv (fun f => noNegZero (rect f))) in H; [done|].
  intros q anchor i j anchorX anchorY p Ha _ _ _ _.
  destruct generateAnchors_strides as (E1 & E2 & E3).
  assert (forall x : num, Leibniz.eqb x neg_zero = false -> x ≠ neg_zero) as Hne.
  { intros x Hx ->. discriminate Hx. }
  unfold strideScales in Hs.
  repeat (apply elem_of_cons in Hs as [[= -> ->]|Hs]);
    [rewrite E1 in Ha|rewrite E2 in Ha|rewrite E3 in Ha|by apply elem_of_nil in Hs].
  all: destruct q as [|[|q]]; [| |done]; injection Ha as <-.
  all: apply decodeCell_noNegZero; by apply Hne.
Qed.

(** C7.  The rescale step maps each rect coordinate to
    [clamp(coordinate, 0, dimension-1) / scale] and divides each landmark
    coordinate by [scale] without clamping.  Consequently, for scale 1
    and a rect fully inside [0, width-1]×[0, height-1], rescaling is a
    no-op: the landmarks and the prob are returned unchanged, and every
    rect coordinate is returned as the same number (bit for bit, but for
    a [-0], which the clamp returns as [+0]).  For the candidates
    [detect] rescales, the proposals of its three strides, no coordinate
    is [-0], and the candidate is returned as it is. *)
Theorem rescale_spec (width height : nat) (scale : num) (obj : FaceObject) :
  rescale width height scale obj
  = {| rect := mkRect (clamp (r0 (rect obj)) 0 (Num.of_nat width - 1) / scale)
                      (clamp (r1 (rect obj)) 0 (Num.of_nat height - 1) / scale)
                      (clamp (r2 (rect obj)) 0 (Num.of_nat width - 1) / scale)
                      (clamp (r3 (rect obj)) 0 (Num.of_nat height - 1) / scale);
       landmarks := (fun l : num * num => ((l.1 / scale)%float, (l.2 / scale)%float))
                      <$> landmarks obj;
       prob := prob obj |}
  ∧ (inside width height (rect obj) ->
     landmarks (rescale width height 1 obj) = landmarks obj
     ∧ prob (rescale width height 1 obj) = prob obj
     ∧ sameRect (rect (rescale width height 1 obj)) (rect obj)
     ∧ unsignedZero (r0 (rect obj)) (r0 (rect (rescale width height 1 obj)))
     ∧ unsignedZero (r1 (rect obj)) (r1 (rect (rescale width height 1 obj)))
     ∧ unsignedZero (r2 (rect obj)) (r2 (rect (rescale width height 1 obj)))
     ∧ unsignedZero (r3 (rect obj)) (r3 (rect (rescale width height 1 obj))))
  ∧ (forall (exp_impl : num -> num) (acceptsArguments : nat -> bool)
            (results : gmap string Tensor) (probThreshold : num),
       proposed exp_impl acceptsArguments results probThreshold obj ->
       noNegZero (rect obj)
       ∧ (inside width height (rect obj) -> rescale width height 1 obj = obj)).
Proof.
  assert (inside width height (rect obj) ->
          unsignedZero (r0 (rect obj)) (r0 (rect (rescale width height 1 obj)))
          ∧ unsignedZero (r1 (rect obj)) (r1 (rect (rescale width height 1 obj)))
          ∧ unsignedZero (r2 (rect obj)) (r2 (rect (rescale width height 1 obj)))
          ∧ unsignedZero (r3 (rect obj)) (r3 (rect (rescale width height 1 obj)))) as Hz.
  { intros ([H0 H0'] & [H1 H1'] & [H2 H2'] & [H3 H3']).
    unfold rescale, unsignedZero. cbn [rect r0 r1 r2 r3].
    rewrite !NumFacts.div_one. repeat split; by apply NumFacts.clamp_inside. }
  assert (landmarks (rescale width height 1 obj) = landmarks obj) as Hl.
  { unfold rescale. cbn [landmarks]. apply rescale_landmarks_one. }
  split; [done|]. split.
  - intros Hin. destruct (Hz Hin) as (Z0 & Z1 & Z2 & Z3).
    destruct Hin as ([H0 _] & [H1 _] & [H2 _] & [H3 _]).
    split; [done|]. split; [done|]. split; [|done].
    repeat split; by apply unsignedZero_sameNumber.
  - intros exp_impl acceptsArguments results probThreshold
           (stride & scales & proposals & Hs & Hp & Hobj).
    apply (processStride_noNegZero _ _ _ _ _ _ _ _ Hs (Forall_nil_2 _)) in Hp.
    rewrite Forall_forall in Hp. specialize (Hp obj Hobj).
    split; [done|]. intros Hin.
    destruct (Hz Hin) as (Z0 & Z1 & Z2 & Z3). destruct Hp as (N0 & N1 & N2 & N3).
    destruct Z0 as [Z0|[Z0 _]]; [|done]. destruct Z1 as [Z1|[Z1 _]]; [|done].
    destruct Z2 as [Z2|[Z2 _]]; [|done]. destruct Z3 as [Z3|[Z3 _]]; [|done].
    destruct obj as [[x0 y0 x1 y1] lm p].
    destruct (rescale width height 1 _) as [[x0' y0' x1' y1'] lm' p'] eqn:E.
    apply (f_equal prob) in E as Ep. simpl in *. by subst.
Qed.

Lemma rescale_spec_witness :
  inside 512 512 (mkRect 10 20 30.5 40)
  ∧ landmarks (rescale 512 512 1 (sampleFace 10 20 30.5 40 0.75))
    = landmarks (sampleFace 10 20 30.5 40 0.75)
  ∧ sameRect (rect (rescale 512 512 1 (sampleFace 10 20 30.5 40 0.75)))
      (mkRect 10 20 30.5 40)
  ∧ proposed exp_sample sampleAccepts stride8Results 0.75 stride8Face
  ∧ inside 32 32 (rect stride8Face)
  ∧ rescale 32 32 1 stride8Face = stride8Face.
Proof.
  assert (inside 512 512 (mkRect 10 20 30.5 40)) as Hin by (repeat split; reflexivity).
  assert (proposed exp_sample sampleAccepts stride8Results 0.75 stride8Face) as Hp.
  { exists 8, [2; 1]%float, [stride8Face].
    split; [unfold strideScales; repeat constructor|].
    split; [reflexivity | by left]. }
  assert (inside 32 32 (rect stride8Face)) as Hin8 by (repeat split; reflexivity).
  split; [exact Hin|].
  destruct (rescale_spec 512 512 1%float (sampleFace 10 20 30.5 40 0.75)) as (_ & H & _).
  destruct (H Hin) as (Hl & _ & Hr & _). split; [exact Hl|]. split; [exact Hr|].
  split; [exact Hp|]. split; [exact Hin8|].
  destruct (rescale_spec 32 32 1%float stride8Face) as (_ & _ & H8).
  exact (proj2 (H8 _ _ _ _ Hp) Hin8).
Defined.

(** The clamp does turn a [-0] into [+0]: the rect (-0, 0, 1, 1) is
    inside [0, 1]×[0, 1], and rescaling at scale 1 returns it with [+0]
    for [-0], the same numbers in another representation. *)
Example rescale_neg_zero :
  inside 2 2 (mkRect (-0) 0 1 1)
  ∧ rescale 2 2 1 (sampleFace (-0) 0 1 1 0.75) ≠ sampleFace (-0) 0 1 1 0.75
  ∧ sameRect (rect (rescale 2 2 1 (sampleFace (-0) 0 1 1 0.75))) (mkRect (-0) 0 1 1).
Proof.
  split; [repeat split; reflexivity|]. split; [|repeat split; reflexivity].
  intros H.
  apply (f_equal (fun o => Leibniz.eqb (r0 (rect o)) neg_zero)) in H.
  discriminate H.
Qed.

Section DetectFacts.

Context {σ : Type}.
Variable session_run : σ -> Tensor -> σ * RunOutcome.
Variables width height : nat.
Variable exp_impl : num -> num.
Variable acceptsArguments : nat -> bool.

(** Its size check is the only place where [detect] throws the
    precondition error; the other throws are those of the [Tensor]
    constructor, a [TypeError], a [RangeError] or the engine's own
    failure. *)
Lemma detect_err (imageData : ImageData.t) (scale probThreshold nmsThreshold : num)
    (s s' : σ) (e : Exn) :
  detect session_run width height exp_impl acceptsArguments imageData
    scale probThreshold nmsThreshold s
  = (s', Err e) ->
  match e with
  | ImageShouldBe w h =>
      (ImageData.width imageData ≠ width ∨ ImageData.height imageData ≠ height)
      ∧ w = width ∧ h = height ∧ s' = s
  | _ => True
  end.
Proof.
  unfold detect. case_bool_decide as Hm.
  { intros H. by simplify_eq. }
  unfold Tensor_new. destruct (decide _) as [Hsz|Hsz]; [|by intros [= _ <-]].
  destruct (session_run s _) as [s1 [results|reason]]; simpl; [|by intros [= _ <-]].
  destruct (processStride _ _ _ _ _ 32 _) as [p1|e1] eqn:H1; simpl;
    [|apply processStride_err in H1 as [-> | ->]; by intros [= _ <-]].
  destruct (processStride _ _ _ _ _ 16 _) as [p2|e2] eqn:H2; simpl;
    [|apply processStride_err in H2 as [-> | ->]; by intros [= _ <-]].
  destruct (processStride _ _ _ _ _ 8 _) as [p3|e3] eqn:H3; simpl;
    [|apply processStride_err in H3 as [-> | ->]; by intros [= _ <-]].
  rewrite nmsSortedBboxes_eq. simpl. intros [= _ He].
  apply (mapR_err (fun e => e = TypeError)) in He as ->; [done|].
  intros i e'. destruct (_ !! i); simpl; congruence.
Qed.

(** The proposals of a call are the earlier ones followed by those the
    call decodes by itself. *)
Lemma processStride_split (results : gmap string Tensor)
    (faceProposals faceProposals' : list FaceObject) (probThreshold : num)
    (stride : nat) (scales : list num) :
  processStride exp_impl acceptsArguments results faceProposals probThreshold stride scales
  = Ok faceProposals' ->
  exists proposals,
    processStride exp_impl acceptsArguments results [] probThreshold stride scales
    = Ok proposals
    ∧ faceProposals' = faceProposals ++ proposals.
Proof.
  unfold processStride, push_spread.
  destruct (generateProposals _ _ _ _ _ _ _) as [proposals|]; simpl; [|done].
  destruct (acceptsArguments _); [|done]. intros [= <-]. eauto.
Qed.

(** Every face [detect] returns is the rescale of a proposal of one of
    its three strides. *)
Lemma detect_rescales_proposed (imageData : ImageData.t)
    (scale probThreshold nmsThreshold : num) (s s' : σ) (faces : list FaceObject) :
  detect session_run width height exp_impl acceptsArguments imageData
    scale probThreshold nmsThreshold s
  = (s', Ok faces) ->
  exists results,
    (session_run s (mkTensor [1; 3; height; width] (toNCHW width height imageData))).2
    = Resolved results
    ∧ Forall (fun f => exists obj,
                proposed exp_impl acceptsArguments results probThreshold obj
                ∧ f = rescale width height scale obj) faces.
Proof.
  unfold detect. case_bool_decide as Hm; [done|].
  unfold Tensor_new. destruct (decide _) as [Hsz|Hsz]; [|done].
  destruct (session_run s _) as [s1 [results|reason]]; simpl; [|done].
  destruct (processStride _ _ _ _ _ 32 _) as [p1|] eqn:H1; simpl; [|done].
  destruct (processStride _ _ _ _ _ 16 _) as [p2|] eqn:H2; simpl; [|done].
  destruct (processStride _ _ _ _ _ 8 _) as [p3|] eqn:H3; simpl; [|done].
  rewrite nmsSortedBboxes_eq. simpl. intros [= _ Hmap].
  exists results. split; [done|].
  apply processStride_split in H1 as (n1 & H1 & ->).
  apply processStride_split in H2 as (n2 & H2 & ->).
  apply processStride_split in H3 as (n3 & H3 & ->).
  assert (Forall (proposed exp_impl acceptsArguments results probThreshold)
            (([] ++ n1) ++ n2 ++ n3)) as Hall.
  { rewrite !Forall_app. repeat split; [constructor|..]; apply Forall_forall; intros f Hf.
    - exists 32, [32; 16]%float, n1. split; [repeat constructor|done].
    - exists 16, [8; 4]%float, n2. split; [repeat constructor|done].
    - exists 8, [2; 1]%float, n3. split; [repeat constructor|done]. }
  rewrite (assoc_L (++)) in Hall. rewrite Forall_forall in Hall.
  apply mapR_Forall2 in Hmap. apply Forall_forall. intros f Hf.
  destruct (proj1 (list_elem_of_lookup _ _) Hf) as [k Hk].
  destruct (Forall2_lookup_r _ _ _ _ _ Hmap Hk) as (i & _ & Hi).
  destruct (_ !! i) as [obj|] eqn:Hobj; simpl in Hi; [|done].
  injection Hi as <-. exists obj. split; [|done].
  by apply list_elem_of_lookup_2, js_sort_elem_of, Hall in Hobj.
Qed.

End DetectFacts.

(** C4.  [detect] raises its precondition error exactly when the image's
    width or height differs from the network input resolution; it then
    fails at once: the engine's state is the one before the call, so no
    inference was run, and the outcome depends on nothing but the two
    sizes. *)
Theorem detect_precondition {σ : Type} (session_run : σ -> Tensor -> σ * RunOutcome)
    (width height : nat) (exp_impl : num -> num) (acceptsArguments : nat -> bool)
    (imageData : ImageData.t)
    (scale probThreshold nmsThreshold : num) (s : σ) :
  ((exists s' w h,
      detect session_run width height exp_impl acceptsArguments imageData
        scale probThreshold nmsThreshold s
      = (s', Err (ImageShouldBe w h)))
   <-> ImageData.width imageData ≠ width ∨ ImageData.height imageData ≠ height)
  ∧ (ImageData.width imageData ≠ width ∨ ImageData.height imageData ≠ height ->
     detect session_run width height exp_impl acceptsArguments imageData
       scale probThreshold nmsThreshold s
     = (s, Err (ImageShouldBe width height))).
Proof.
  assert (ImageData.width imageData ≠ width ∨ ImageData.height imageData ≠ height ->
          detect session_run width height exp_impl acceptsArguments imageData
            scale probThreshold nmsThreshold s
          = (s, Err (ImageShouldBe width height))) as Hfail.
  { intros Hm. unfold detect. by rewrite bool_decide_eq_true_2. }
  split; [|done]. split.
  - intros (s' & w & h & H). by apply detect_err in H as [? _].
  - intros Hm. do 3 eexists. by apply Hfail.
Qed.

Lemma detect_precondition_witness :
  (ImageData.width smallImage ≠ 32 ∨ ImageData.height smallImage ≠ 32)
  ∧ detect (countingSession [0; 0; 2; 0x1.99999ap-1]%float) 32 32 exp_sample sampleAccepts
      smallImage default_scale default_probThreshold default_nmsThreshold 0
    = (0, Err (ImageShouldBe 32 32)).
Proof.
  assert (ImageData.width smallImage ≠ 32 ∨ ImageData.height smallImage ≠ 32) as Hm
    by (left; discriminate).
  split; [exact Hm|].
  exact (proj2 (detect_precondition (countingSession [0; 0; 2; 0x1.99999ap-1]%float)
                  32 32 exp_sample sampleAccepts smallImage default_scale default_probThreshold
                  default_nmsThreshold 0) Hm).
Defined.

(** C2, as amended.  When [detect] returns a list, the session resolved
    to some outputs, and every returned candidate's prob is at least
    probThreshold and is a score of one of the three score tensors; so it
    lies in [probThreshold, 1] whenever those scores are at most 1. *)
Theorem detect_prob_bounds {σ : Type} (session_run : σ -> Tensor -> σ * RunOutcome)
    (width height : nat) (exp_impl : num -> num) (acceptsArguments : nat -> bool)
    (imageData : ImageData.t)
    (scale probThreshold nmsThreshold : num) (s s' : σ) (faces : list FaceObject) :
  detect session_run width height exp_impl acceptsArguments imageData
    scale probThreshold nmsThreshold s
  = (s', Ok faces) ->
  exists results,
    (session_run s (mkTensor [1; 3; height; width] (toNCHW width height imageData))).2
    = Resolved results
    ∧ forall f, f ∈ faces ->
        scoredBy results probThreshold f
        ∧ (scoresAtMostOne results -> (prob f <=? 1)%float = true).
Proof.
  unfold detect. case_bool_decide as Hm; [done|].
  unfold Tensor_new. destruct (decide _) as [Hsz|Hsz]; [|done].
  destruct (session_run s _) as [s1 [results|reason]]; simpl; [|done].
  destruct (processStride _ _ _ _ _ 32 _) as [p1|] eqn:H1; simpl; [|done].
  destruct (processStride _ _ _ _ _ 16 _) as [p2|] eqn:H2; simpl; [|done].
  destruct (processStride _ _ _ _ _ 8 _) as [p3|] eqn:H3; simpl; [|done].
  rewrite nmsSortedBboxes_eq. simpl. intros [= _ Hmap].
  exists results. split; [done|].
  apply processStride_scored in H1; [|by repeat constructor..].
  apply processStride_scored in H2; [|by repeat constructor|done].
  apply processStride_scored in H3; [|by repeat constructor|done].
  rewrite Forall_forall in H3.
  apply mapR_Forall2 in Hmap.
  intros f Hf.
  destruct (proj1 (list_elem_of_lookup _ _) Hf) as [k Hk].
  destruct (Forall2_lookup_r _ _ _ _ _ Hmap Hk) as (i & _ & Hi).
  destruct (_ !! i) as [obj|] eqn:Hobj; simpl in Hi; [|done].
  injection Hi as <-.
  apply list_elem_of_lookup_2, js_sort_elem_of, H3 in Hobj.
  split; [exact Hobj|].
  intros Hle. destruct Hobj as (_ & stride & t & Hs & Ht & Hin). simpl. eauto.
Qed.

Lemma detect_prob_bounds_witness :
  detect (countingSession [0; 0; 0x1.ccccccp-1; 0x1.99999ap-1]%float) 32 32 exp_sample sampleAccepts
    sampleImage default_scale default_probThreshold default_nmsThreshold 0
  = (1, Ok (sampleDetection 0x1.ccccccp-1))
  ∧ forall f, f ∈ sampleDetection 0x1.ccccccp-1 ->
      ge (prob f) default_probThreshold = true.
Proof.
  assert (detect (countingSession [0; 0; 0x1.ccccccp-1; 0x1.99999ap-1]%float) 32 32
            exp_sample sampleAccepts sampleImage default_scale default_probThreshold
            default_nmsThreshold 0
          = (1, Ok (sampleDetection 0x1.ccccccp-1))) as Hrun
    by (vm_compute; reflexivity).
  split; [exact Hrun|].
  intros f Hf.
  destruct (detect_prob_bounds _ _ _ _ _ _ _ _ _ _ _ _ Hrun) as (results & _ & H).
  exact (proj1 (proj1 (H f Hf))).
Defined.

(** C2 as stated fails: nothing bounds a score by 1.  With a session whose
    face score at stride 32 is 2, [detect] returns a candidate of prob
    2. *)
Lemma detect_prob_above_one :
  detect (countingSession [0; 0; 2; 0x1.99999ap-1]%float) 32 32 exp_sample sampleAccepts
    sampleImage default_scale default_probThreshold default_nmsThreshold 0
  = (1, Ok (sampleDetection 2))
  ∧ (2 <=? 1)%float = false.
Proof. split; [vm_compute; reflexivity | reflexivity]. Qed.

(** ** Further properties of the pipeline *)

Lemma for_loop_0 {S} (body : nat -> S -> S) (s : S) : for_loop 0 body s = s.
Proof. done. Qed.

(** *** The input tensor *)

(** X1.  For an image of the network's size, with its 4·width·height
    RGBA bytes, the input tensor holds 3·width·height numbers in three
    planes: entry [c·len + i] is byte [c] of pixel [i] (red, green, blue),
    a value in 0..255 that the 32-bit float buffer holds exactly, and
    the alpha bytes are dropped. *)
Theorem toNCHW_planes (width height : nat) (imageData : ImageData.t) :
  length (ImageData.data imageData) = 4 * (width * height) ->
  length (toNCHW width height imageData) = 3 * (width * height)
  ∧ forall (i c : nat) (byte : Z),
      i < width * height -> c < 3 ->
      ImageData.data imageData !! (i * 4 + c) = Some byte ->
      (0 <= byte <= 255)%Z ->
      toNCHW width height imageData !! (c * (width * height) + i)
      = Some (Num.of_Z byte).
Proof.
  intros Hlen. unfold toNCHW. rewrite Hlen.
  set (len := width * height).
  set (pixel := fun k => of_undefined (Num.of_Z <$> ImageData.data imageData !! k)).
  replace (4 * len * 3 / 4) with (3 * len)
    by (apply Nat.div_unique_exact; lia).
  match goal with |- context [for_loop len ?b ?d] =>
    assert (forall k, k ≤ len ->
      length (for_loop k b d) = 3 * len
      ∧ forall i c byte, i < k -> c < 3 ->
          ImageData.data imageData !! (i * 4 + c) = Some byte ->
          for_loop k b d !! (c * len + i) = Some (Num.of_Z byte)) as H
  end.
  { induction k as [|k IH]; intros Hk.
    - rewrite for_loop_0. split; [by rewrite length_replicate | lia].
    - destruct IH as [IHlen IH]; [lia|]. rewrite for_loop_S.
      match goal with |- context [<[k := _]> ?a] => set (arr := a) in * end.
      change (length arr = 3 * len) in IHlen.
      change (forall i c byte, i < k -> c < 3 ->
                ImageData.data imageData !! (i * 4 + c) = Some byte ->
                arr !! (c * len + i) = Some (Num.of_Z byte)) in IH.
      split.
      + by rewrite !length_insert.
      + intros i c byte Hi Hc Hbyte.
        assert (pixel (i * 4 + c) = Num.of_Z byte) as Hpx
          by (unfold pixel; by rewrite Hbyte).
        destruct (decide (i = k)) as [->|Hne].
        * destruct c as [|[|[|c]]]; [| | |lia].
          -- rewrite list_lookup_insert_ne, list_lookup_insert_ne by lia.
             replace (0 * len + k) with k by lia.
             rewrite list_lookup_insert_eq by (eapply Nat.lt_le_trans; [|apply Nat.eq_le_incl; symmetry; rewrite ?length_insert; exact IHlen]; lia).
             by rewrite <- Hpx, Nat.add_0_r.
          -- rewrite list_lookup_insert_ne by lia.
             replace (1 * len + k) with (k + len) by lia.
             rewrite list_lookup_insert_eq by (eapply Nat.lt_le_trans; [|apply Nat.eq_le_incl; symmetry; rewrite ?length_insert; exact IHlen]; lia).
             by rewrite <- Hpx.
          -- replace (2 * len + k) with (k + len * 2) by lia.
             rewrite list_lookup_insert_eq by (eapply Nat.lt_le_trans; [|apply Nat.eq_le_incl; symmetry; rewrite ?length_insert; exact IHlen]; lia).
             by rewrite <- Hpx.
        * rewrite !list_lookup_insert_ne by (destruct c as [|[|[|c]]]; lia).
          apply IH; [lia|done..]. }
  destruct (H len (le_n _)) as [H1 H2]. split; [exact H1|].
  intros i c byte Hi Hc Hbyte _. by apply H2.
Qed.

Lemma toNCHW_planes_witness :
  length (ImageData.data tinyImage) = 4 * (2 * 1)
  ∧ toNCHW 2 1 tinyImage = [255; 0; 128; 64; 0; 255]%float
  ∧ toNCHW 2 1 tinyImage !! (2 * (2 * 1) + 1) = Some 255%float.
Proof.
  split; [reflexivity|]. split; [reflexivity|].
  exact (proj2 (toNCHW_planes 2 1 tinyImage eq_refl) 1 2 255%Z
           ltac:(lia) ltac:(lia) eq_refl ltac:(lia)).
Defined.

(** *** Sorting *)

Lemma sortInsert_Permutation {A} (cmp : A -> A -> num) (x : A) (l : list A) :
  sortInsert cmp x l ≡ₚ x :: l.
Proof.
  induction l as [|y l IH]; simpl; [done|].
  destruct (gt _ _); [|done]. rewrite IH. apply Permutation_swap.
Qed.

(** X2.  [sort] loses and invents nothing: the sorted array is a
    permutation of the array it was given, whatever the comparator
    returns. *)
Theorem js_sort_Permutation {A} (cmp : A -> A -> num) (l : list A) :
  js_sort cmp l ≡ₚ l.
Proof.
  unfold js_sort. induction l as [|x l IH]; simpl; [done|].
  by rewrite sortInsert_Permutation, IH.
Qed.

(** *** The shape of the picked list *)

Lemma forallb_false_elem_of {A} (f : A -> bool) (l : list A) :
  forallb f l = false -> exists x, x ∈ l ∧ f x = false.
Proof.
  induction l as [|x l IH]; simpl; [done|].
  destruct (f x) eqn:Hx; simpl.
  - intros (y & Hy & Hfy)%IH. exists y. split; [by right | done].
  - intros _. exists x. split; [by left | done].
Qed.

(** X3.  [nmsSortedBboxes] never throws, and the indices it returns are
    strictly increasing and within the candidate list; when there is a
    candidate at all, the first one, of highest rank, is always picked. *)
Theorem nmsSortedBboxes_shape (faceObjects : list FaceObject) (nmsThreshold : num) :
  exists picked,
    nmsSortedBboxes faceObjects nmsThreshold = Ok picked
    ∧ StronglySorted lt picked
    ∧ (forall i, i ∈ picked -> i < length faceObjects)
    ∧ (faceObjects ≠ [] -> head picked = Some 0).
Proof.
  eexists. split; [apply nmsSortedBboxes_eq|].
  split; [apply greedyPick_sorted|]. split; [intros i; apply greedyPick_lt|].
  intros Hne. destruct faceObjects as [|f faces]; [done|]. simpl length.
  destruct (greedyPick_prefix (f :: faces) nmsThreshold 1 (S (length faces))
              ltac:(lia)) as [l ->].
  done.
Qed.

(** X4.  A candidate is left out only for a reason: it exceeds the
    threshold against a candidate picked before it. *)
Theorem nmsSortedBboxes_suppressed (faceObjects : list FaceObject) (nmsThreshold : num)
    (picked : list nat) (i : nat) (a : FaceObject) :
  nmsSortedBboxes faceObjects nmsThreshold = Ok picked ->
  faceObjects !! i = Some a ->
  i ∉ picked ->
  exists (j : nat) (b : FaceObject),
    j ∈ picked ∧ j < i ∧ faceObjects !! j = Some b
    ∧ gt (iou a b) nmsThreshold = true.
Proof.
  rewrite nmsSortedBboxes_eq. intros [= <-] Ha Hout.
  pose proof (lookup_lt_Some _ _ _ Ha) as Hi.
  rewrite (greedyPick_stable _ _ (S i)) in Hout by lia.
  rewrite greedyPick_S in Hout.
  destruct (forallb _ _) eqn:Hall.
  { exfalso. apply Hout. apply elem_of_app. right. by left. }
  apply forallb_false_elem_of in Hall as (j & Hj & Hover).
  pose proof (greedyPick_lt _ _ _ _ Hj) as Hji.
  unfold exceeds in Hover. rewrite Ha in Hover.
  destruct (faceObjects !! j) as [b|] eqn:Hb; [|done].
  exists j, b. split; [|split; [done|split; [done|by destruct (gt _ _)]]].
  apply (greedyPick_stable _ _ i); [lia|done|done].
Qed.

Lemma nmsSortedBboxes_suppressed_witness :
  nmsSortedBboxes sampleFaces 0.5 = Ok [0; 2]
  ∧ exists (j : nat) (b : FaceObject),
      j ∈ [0; 2] ∧ j < 1 ∧ sampleFaces !! j = Some b
      ∧ gt (iou (sampleFace 0 0 10 6 0.75) b) 0.5 = true.
Proof.
  split; [reflexivity|].
  apply (nmsSortedBboxes_suppressed sampleFaces 0.5%float [0; 2] 1
           (sampleFace 0 0 10 6 0.75) eq_refl eq_refl).
  intros [H|H]%elem_of_cons; [discriminate H|].
  apply list_elem_of_singleton in H. discriminate H.
Defined.

(** X5.  A threshold of [NaN] or [+∞] switches suppression off: no
    quotient is above it, and every candidate is picked. *)
Theorem nmsSortedBboxes_off (faceObjects : list FaceObject) (nmsThreshold : num) :
  nmsThreshold = nan ∨ nmsThreshold = infinity ->
  nmsSortedBboxes faceObjects nmsThreshold = Ok (seq 0 (length faceObjects)).
Proof.
  intros Hthr. rewrite nmsSortedBboxes_eq. f_equal.
  apply greedyPick_all. intros i j _ _. unfold exceeds.
  destruct (faceObjects !! i), (faceObjects !! j); try done.
  destruct Hthr as [-> | ->]; [apply NumFacts.gt_nan_r | apply NumFacts.gt_infinity_r].
Qed.

Lemma nmsSortedBboxes_off_witness :
  nmsSortedBboxes sampleFaces nan = Ok [0; 1; 2].
Proof. exact (nmsSortedBboxes_off sampleFaces nan (or_introl eq_refl)). Defined.

(** *** The candidates of the decoder *)

Lemma foldR_inv_count {S A} (P : nat -> S -> Prop) (body : S -> A -> Result S)
    (xs : list A) (s0 s : S) :
  P 0 s0 ->
  (forall k x y y', x ∈ xs -> P k y -> body y x = Ok y' -> P (Datatypes.S k) y') ->
  foldR body xs s0 = Ok s -> P (length xs) s.
Proof.
  revert P s0. induction xs as [|x xs IH]; intros P s0 H0 Hstep; simpl.
  - by intros [= <-].
  - destruct (body s0 x) as [s1|e] eqn:Hb; simpl; [|done].
    apply (IH (fun k => P (Datatypes.S k))); [eapply Hstep; eauto; by left|].
    intros k x' y y' Hx'. apply Hstep. by right.
Qed.

Lemma decodeRow_length (exp_impl : num -> num) (w : nat) (featStride probThreshold : num)
    (score bbox landmark : list num)
    (scoreOffset bboxOffset landmarkOffset offset : nat)
    (anchorY anchorW anchorH : num) (i : nat) (st : num * list FaceObject) :
  length (decodeRow exp_impl w featStride probThreshold score bbox landmark
            scoreOffset bboxOffset landmarkOffset offset anchorY anchorW anchorH i st).2
  ≤ length st.2 + w.
Proof.
  unfold decodeRow.
  apply (for_loop_ind (fun j st' => length st'.2 ≤ length st.2 + j)); [lia|].
  intros j [anchorX faces] _ Hf. simpl in *.
  destruct (ge _ _); [rewrite length_app; simpl|]; lia.
Qed.

Lemma decodeAnchor_length (exp_impl : num -> num) (anchors : JsArray Rect) (w h : nat)
    (featStride probThreshold : num) (score bbox landmark : list num)
    (faces faces' : list FaceObject) (q : nat) :
  decodeAnchor exp_impl anchors w h featStride probThreshold score bbox landmark faces q
  = Ok faces' ->
  length faces' ≤ length faces + w * h.
Proof.
  unfold decodeAnchor.
  destruct (js_get anchors q) as [anchor|]; simpl; [|done].
  match goal with |- context [for_loop h ?b ?s0] =>
    pose proof (for_loop_ind (fun i st' => length st'.2 ≤ length faces + w * i)
                  h b s0 ltac:(simpl; lia)) as Hloop
  end.
  destruct (for_loop h _ _) as [anchorY out]. intros [= <-]. apply Hloop.
  intros i [y fs] _ Hfs. simpl in *.
  match goal with |- context [decodeRow ?e ?w ?fs ?t ?s ?b ?l ?so ?bo ?lo ?o ?ay ?aw ?ah ?i ?st] =>
    pose proof (decodeRow_length e w fs t s b l so bo lo o ay aw ah i st) as Hrow
  end.
  destruct (decodeRow _ _ _ _ _ _ _ _ _ _ _ _ _ _ _ _). simpl in *. lia.
Qed.

(** X6.  The decoder yields at most one candidate per anchor and grid
    cell, each with five landmark points; on a grid without cells (a
    zero or missing dimension of the bbox tensor) it yields none. *)
Theorem generateProposals_count (exp_impl : num -> num) (anchors : JsArray Rect)
    (featStride : num) (scoreT landmarkT : option Tensor) (bboxT : Tensor)
    (probThreshold : num) (faces : list FaceObject) :
  generateProposals exp_impl anchors featStride scoreT (Some bboxT) landmarkT
    probThreshold = Ok faces ->
  length faces
  ≤ length anchors * (default 0 (dims bboxT !! 3) * default 0 (dims bboxT !! 2))
  ∧ Forall (fun f => length (landmarks f) = 5) faces.
Proof.
  intros H. split.
  - revert H. unfold generateProposals.
    destruct scoreT as [sT|], landmarkT as [lT|]; simpl; try done.
    intros H.
    apply (foldR_inv_count (fun k fs => length fs
             ≤ k * (default 0 (dims bboxT !! 3) * default 0 (dims bboxT !! 2)))) in H.
    + by rewrite length_seq in H.
    + simpl. lia.
    + intros k q y y' _ Hy Hstep%decodeAnchor_length. lia.
  - apply generateProposals_decoded in H as (sT & bT & lT & _ & _ & _ & Hall).
    eapply Forall_impl; [exact Hall|].
    by intros f (aX & aY & aW & aH & bo & lo & idx & off & k & p & _ & _ & ->).
Qed.

Lemma generateProposals_count_witness :
  exists faces,
    generateProposals exp_sample sampleAnchors 16
      (Some sampleScoreT) (Some sampleBboxT) (Some sampleLandmarkT) 0.5 = Ok faces
    ∧ length faces ≤ 1 * (2 * 1).
Proof.
  eexists. split; [reflexivity|].
  exact (proj1 (generateProposals_count exp_sample sampleAnchors 16%float
                  (Some sampleScoreT) (Some sampleLandmarkT) sampleBboxT 0.5%float
                  _ eq_refl)).
Defined.

(** X7.  A [NaN] threshold rejects every cell: whatever the tensors
    hold, the decoder then returns no candidate. *)
Theorem generateProposals_nan_threshold (exp_impl : num -> num) (anchors : JsArray Rect)
    (featStride : num) (scoreT bboxT landmarkT : option Tensor)
    (faces : list FaceObject) :
  generateProposals exp_impl anchors featStride scoreT bboxT landmarkT nan = Ok faces ->
  faces = [].
Proof.
  intros (sT & bT & lT & _ & _ & _ & Hall)%generateProposals_decoded.
  destruct faces as [|f faces]; [done|].
  apply Forall_cons in Hall as [[_ Hge]%decodedFrom_prob _].
  by rewrite NumFacts.ge_nan_r in Hge.
Qed.

Lemma generateProposals_nan_threshold_witness :
  generateProposals exp_sample sampleAnchors 16
    (Some sampleScoreT) (Some sampleBboxT) (Some sampleLandmarkT) nan = Ok [].
Proof.
  assert (exists faces, generateProposals exp_sample sampleAnchors 16
            (Some sampleScoreT) (Some sampleBboxT) (Some sampleLandmarkT) nan = Ok faces)
    as [faces H] by (eexists; reflexivity).
  rewrite H. f_equal. exact (generateProposals_nan_threshold _ _ _ _ _ _ _ H).
Defined.

Lemma for_loop_ext {S} (n : nat) (body1 body2 : nat -> S -> S) (s : S) :
  (forall i x, i < n -> body1 i x = body2 i x) ->
  for_loop n body1 s = for_loop n body2 s.
Proof.
  intros H. apply (for_loop_ind2 eq); [done|].
  intros i x y Hi <-. by apply H.
Qed.

Lemma foldR_ext {S A} (body1 body2 : S -> A -> Result S) (xs : list A) (s : S) :
  (forall x y, x ∈ xs -> body1 y x = body2 y x) ->
  foldR body1 xs s = foldR body2 xs s.
Proof.
  revert s. induction xs as [|x xs IH]; intros s H; simpl; [done|].
  rewrite H by (by left). destruct (body2 s x); simpl; [|done].
  apply IH. intros x' y Hx'. apply H. by right.
Qed.

(** X8.  The decoder reads the face scores only: the background block at
    the head of the score buffer, one channel per anchor, has no
    influence on its result. *)
Theorem generateProposals_background (exp_impl : num -> num) (anchors : JsArray Rect)
    (featStride : num) (scoreT scoreT' bboxT : Tensor) (landmarkT : option Tensor)
    (probThreshold : num) :
  (forall k,
     length anchors * (default 0 (dims bboxT !! 3) * default 0 (dims bboxT !! 2)) ≤ k ->
     getData scoreT !! k = getData scoreT' !! k) ->
  generateProposals exp_impl anchors featStride (Some scoreT) (Some bboxT) landmarkT
    probThreshold
  = generateProposals exp_impl anchors featStride (Some scoreT') (Some bboxT) landmarkT
      probThreshold.
Proof.
  intros Hsame. unfold generateProposals.
  destruct landmarkT as [lT|]; simpl; [|done].
  set (w := default 0 (dims bboxT !! 3)) in *.
  set (h := default 0 (dims bboxT !! 2)) in *.
  apply foldR_ext. intros q faces _. unfold decodeAnchor.
  destruct (js_get anchors q) as [anchor|]; simpl; [|done].
  match goal with |- (let '(_, _) := for_loop h ?b1 ?s in _) = (let '(_, _) := for_loop h ?b2 ?s in _) =>
    replace (for_loop h b1 s) with (for_loop h b2 s); [done|]
  end.
  apply for_loop_ext. intros i [anchorY fs] Hi.
  match goal with |- (let '(_, _) := ?r1 in _) = (let '(_, _) := ?r2 in _) =>
    replace r1 with r2; [done|]
  end.
  unfold decodeRow. apply for_loop_ext. intros j [anchorX fs'] Hj.
  unfold num_at. rewrite Hsame; [done|]. nia.
Qed.

Lemma generateProposals_background_witness :
  generateProposals exp_sample sampleAnchors 16
    (Some sampleScoreT) (Some sampleBboxT) (Some sampleLandmarkT) 0.5
  = generateProposals exp_sample sampleAnchors 16
      (Some (mkTensor [1; 2; 1; 2] [1; 1; 0x1.ccccccp-1; 0x1.333334p-1]%float))
      (Some sampleBboxT) (Some sampleLandmarkT) 0.5.
Proof.
  apply (generateProposals_background exp_sample sampleAnchors 16%float sampleScoreT
           (mkTensor [1; 2; 1; 2] [1; 1; 0x1.ccccccp-1; 0x1.333334p-1]%float)
           sampleBboxT (Some sampleLandmarkT) 0.5%float).
  intros [|[|k]] Hk; [simpl in Hk; lia..|reflexivity].
Defined.

(** *** The outcomes of the aggregator and of the detector *)

(** The anchor array has no hole. *)
Lemma generateAnchors_dense (baseSize : num) (ratios scales : list num) (q : nat) :
  q < length (generateAnchors baseSize ratios scales) ->
  is_Some (js_get (generateAnchors baseSize ratios scales) q).
Proof.
  unfold generateAnchors. cbv zeta.
  match goal with |- context [for_loop (length ratios) ?b []] => set (body := b) end.
  assert (forall n, length (for_loop n body []) = n * length scales
                    ∧ Forall is_Some (for_loop n body [])) as H.
  { induction n as [|n [IHlen IH]]; [by split|].
    rewrite for_loop_S. unfold body at 1 3.
    rewrite (anchors_inner_loop _ (n * length scales)) by done. split.
    - rewrite length_app, length_fmap, length_seq. lia.
    - apply Forall_app. split; [done|].
      apply Forall_fmap, Forall_true. intros j. by eexists. }
  destruct (H (length ratios)) as [_ Hall]. intros Hq.
  destruct (lookup_lt_is_Some_2 _ _ Hq) as [o Ho].
  rewrite Forall_forall in Hall. unfold js_get. rewrite Ho.
  apply Hall. by eapply list_elem_of_lookup_2.
Qed.

Lemma generateProposals_total (exp_impl : num -> num) (anchors : JsArray Rect)
    (featStride : num) (scoreT bboxT landmarkT : Tensor) (probThreshold : num) :
  (forall q, q < length anchors -> is_Some (js_get anchors q)) ->
  exists faces,
    generateProposals exp_impl anchors featStride
      (Some scoreT) (Some bboxT) (Some landmarkT) probThreshold = Ok faces.
Proof.
  intros Hdense. unfold generateProposals. simpl. apply foldR_total.
  intros q y [_ Hq]%elem_of_seq. unfold decodeAnchor.
  destruct (Hdense q ltac:(lia)) as [anchor ->]. simpl.
  destruct (for_loop _ _ _). eauto.
Qed.


(** With its three tensors, [processStride] decodes the proposals and
    pushes them. *)
Lemma processStride_present (exp_impl : num -> num) (acceptsArguments : nat -> bool)
    (results : gmap string Tensor)
    (faceProposals : list FaceObject) (probThreshold : num) (stride : nat)
    (scales : list num) :
  outputsPresent results stride ->
  exists proposals,
    generateProposals exp_impl (generateAnchors 16 [1%float] scales) (Num.of_nat stride)
      (results !! strideName "face_rpn_cls_prob_reshape_stride" stride)
      (results !! strideName "face_rpn_bbox_pred_stride" stride)
      (results !! strideName "face_rpn_landmark_pred_stride" stride)
      probThreshold = Ok proposals
    ∧ processStride exp_impl acceptsArguments results faceProposals probThreshold
        stride scales
      = if acceptsArguments (length proposals)
        then Ok (faceProposals ++ proposals) else Err RangeError.
Proof.
  unfold processStride, outputsPresent, push_spread.
  intros ([sT ->] & [bT ->] & [lT ->]).
  destruct (generateProposals_total exp_impl
              (generateAnchors 16 [1%float] scales) (Num.of_nat stride)
              sT bT lT probThreshold) as [proposals ->].
  { intros q. apply generateAnchors_dense. }
  simpl. eauto.
Qed.

Lemma processStride_ok_present (exp_impl : num -> num) (acceptsArguments : nat -> bool)
    (results : gmap string Tensor)
    (faceProposals faceProposals' : list FaceObject) (probThreshold : num)
    (stride : nat) (scales : list num) :
  processStride exp_impl acceptsArguments results faceProposals probThreshold stride scales
  = Ok faceProposals' ->
  outputsPresent results stride.
Proof.
  unfold processStride, outputsPresent.
  destruct (generateProposals _ _ _ _ _ _ _) as [proposals|e] eqn:H; simpl; [|done].
  intros _.
  apply generateProposals_decoded in H as (sT & bT & lT & -> & -> & -> & _).
  by repeat split.
Qed.

(** What each outcome of [processStride] tells. *)
Lemma processStride_cases (exp_impl : num -> num) (acceptsArguments : nat -> bool)
    (results : gmap string Tensor)
    (faceProposals : list FaceObject) (probThreshold : num) (stride : nat)
    (scales : list num) :
  match processStride exp_impl acceptsArguments results faceProposals probThreshold
          stride scales with
  | Ok _ => outputsPresent results stride
  | Err TypeError => ¬ outputsPresent results stride
  | Err RangeError => exists n, acceptsArguments n = false
  | Err _ => False
  end.
Proof.
  destruct (processStride _ _ _ _ _ _ _) as [fp|e] eqn:H.
  { by eapply processStride_ok_present. }
  destruct (processStride_err _ _ _ _ _ _ _ _ H) as [-> | ->].
  - intros Hp.
    destruct (processStride_present exp_impl acceptsArguments results faceProposals
                probThreshold stride scales Hp) as (proposals & _ & Heq).
    rewrite H in Heq. by destruct (acceptsArguments _).
  - revert H. unfold processStride, push_spread.
    destruct (generateProposals _ _ _ _ _ _ _) as [proposals|e] eqn:Hg; simpl.
    + destruct (acceptsArguments _) eqn:Ha; [done|]. eauto.
    + intros [= ->]. by apply generateProposals_err in Hg.
Qed.


(** X9.  [processStride] throws a [TypeError] exactly when the result
    map lacks one of the three tensors named after the stride.  With
    all three the decoder returns its proposals, and pushing them
    succeeds when the engine accepts that many call arguments, the
    earlier proposals being kept, in order, in front of the new ones; it
    throws a [RangeError] when the engine does not. *)
Theorem processStride_outcome (exp_impl : num -> num) (acceptsArguments : nat -> bool)
    (results : gmap string Tensor)
    (faceProposals : list FaceObject) (probThreshold : num) (stride : nat)
    (scales : list num) :
  (outputsPresent results stride ->
   exists proposals,
     generateProposals exp_impl (generateAnchors 16 [1%float] scales) (Num.of_nat stride)
       (results !! strideName "face_rpn_cls_prob_reshape_stride" stride)
       (results !! strideName "face_rpn_bbox_pred_stride" stride)
       (results !! strideName "face_rpn_landmark_pred_stride" stride)
       probThreshold = Ok proposals
     ∧ processStride exp_impl acceptsArguments results faceProposals probThreshold
         stride scales
       = if acceptsArguments (length proposals)
         then Ok (faceProposals ++ proposals) else Err RangeError)
  ∧ (¬ outputsPresent results stride ->
     processStride exp_impl acceptsArguments results faceProposals probThreshold
       stride scales = Err TypeError).
Proof.
  split; [apply processStride_present|].
  intros Hmiss.
  pose proof (processStride_cases exp_impl acceptsArguments results faceProposals
                probThreshold stride scales) as Hc.
  destruct (processStride _ _ _ _ _ _ _) as [proposals|e] eqn:H; [done|].
  destruct (processStride_err _ _ _ _ _ _ _ _ H) as [-> | ->]; [done|].
  revert H. unfold processStride, push_spread.
  destruct (generateProposals _ _ _ _ _ _ _) as [proposals|e] eqn:Hg; simpl.
  - apply generateProposals_decoded in Hg as (sT & bT & lT & Hs & Hb & Hl & _).
    exfalso. apply Hmiss. unfold outputsPresent. rewrite Hs, Hb, Hl. by repeat split.
  - intros [= ->]. by apply generateProposals_err in Hg.
Qed.

Lemma processStride_outcome_witness :
  outputsPresent (sampleResults [0; 0; 2; 0x1.99999ap-1]%float) 32
  ∧ ¬ outputsPresent (sampleResults [0; 0; 2; 0x1.99999ap-1]%float) 64
  ∧ (exists proposals,
       length proposals = 2
       ∧ processStride exp_sample sampleAccepts (sampleResults [0; 0; 2; 0x1.99999ap-1]%float)
           sampleFaces 0.75 32 [32; 16]%float = Ok (sampleFaces ++ proposals))
  ∧ processStride exp_sample (fun n => bool_decide (n ≤ 1))
      (sampleResults [0; 0; 2; 0x1.99999ap-1]%float)
      sampleFaces 0.75 32 [32; 16]%float = Err RangeError
  ∧ processStride exp_sample sampleAccepts (sampleResults [0; 0; 2; 0x1.99999ap-1]%float)
      sampleFaces 0.75 64 [64; 32]%float = Err TypeError.
Proof.
  assert (outputsPresent (sampleResults [0; 0; 2; 0x1.99999ap-1]%float) 32) as H32
    by (repeat split; by eexists).
  assert (¬ outputsPresent (sampleResults [0; 0; 2; 0x1.99999ap-1]%float) 64) as H64
    by (intros [[t Ht] _]; discriminate Ht).
  split; [exact H32|]. split; [exact H64|]. split; [|split].
  - destruct (proj1 (processStride_outcome exp_sample sampleAccepts _ sampleFaces
                       0.75%float 32 [32; 16]%float) H32) as (proposals & Hg & Hp).
    exists proposals. injection Hg as <-. split; [reflexivity | exact Hp].
  - destruct (proj1 (processStride_outcome exp_sample (fun n => bool_decide (n ≤ 1)) _
                       sampleFaces 0.75%float 32 [32; 16]%float) H32)
      as (proposals & Hg & Hp).
    injection Hg as <-. exact Hp.
  - exact (proj2 (processStride_outcome exp_sample sampleAccepts _ sampleFaces 0.75%float 64
                    [64; 32]%float) H64).
Defined.





Lemma sortInsert_descending (x : FaceObject) (l : list FaceObject) :
  is_nan (prob x) = false ->
  Forall (fun f => is_nan (prob f) = false) l ->
  descending l -> descending (sortInsert byProbDescending x l).
Proof.
  intros Hx Hl Hs. induction Hs as [|y l Hs IH Hy]; simpl.
  - repeat constructor.
  - apply Forall_cons in Hl as [Hyn Hl].
    unfold byProbDescending at 1. rewrite NumOrder.sub_gt_zero by done.
    destruct (gt (prob y) (prob x)) eqn:Hgt.
    + constructor; [by apply IH|].
      apply Forall_forall. intros z [-> | Hz]%sortInsert_elem_of.
      * by apply NumOrder.gt_ge.
      * rewrite Forall_forall in Hy. by apply Hy.
    + apply NumFacts.not_gt_le in Hgt; [|done..].
      constructor; [by constructor|].
      constructor; [done|].
      eapply Forall_impl; [exact Hy|]. intros z Hz. simpl in Hz.
      by eapply NumOrder.ge_trans.
Qed.

(** X11.  When no prob is [NaN], the sort of line 188 puts the
    candidates in order of descending prob: every candidate's prob is at
    least that of every candidate behind it. *)
Theorem js_sort_byProb_descending (l : list FaceObject) :
  Forall (fun f => is_nan (prob f) = false) l ->
  descending (js_sort byProbDescending l).
Proof.
  unfold js_sort. induction 1 as [|x l Hx Hl IH]; simpl; [constructor|].
  apply sortInsert_descending; [done| |done].
  apply Forall_forall. intros f Hf. rewrite Forall_forall in Hl.
  by apply Hl, (js_sort_elem_of byProbDescending).
Qed.

Lemma js_sort_byProb_descending_witness :
  descending (js_sort byProbDescending
    [sampleFace 0 0 1 1 0.5; sampleFace 0 0 2 2 0.75; sampleFace 0 0 3 3 0.75]).
Proof.
  apply (js_sort_byProb_descending
    [sampleFace 0 0 1 1 0.5; sampleFace 0 0 2 2 0.75; sampleFace 0 0 3 3 0.75]).
  repeat constructor.
Defined.

(** X12.  The sort is stable: candidates that are already in order of
    descending prob, none of them [NaN], are returned as they are, those
    of equal prob keeping their order. *)
Theorem js_sort_stable (l : list FaceObject) :
  Forall (fun f => is_nan (prob f) = false) l ->
  descending l -> js_sort byProbDescending l = l.
Proof.
  unfold js_sort. intros Hn Hs. induction Hs as [|x l Hs IH Hx]; simpl; [done|].
  apply Forall_cons in Hn as [Hxn Hn]. rewrite IH by done.
  destruct Hx as [|y l Hxy Hx]; simpl; [done|].
  apply Forall_cons in Hn as [Hyn Hn].
  unfold byProbDescending. rewrite NumOrder.sub_gt_zero by done.
  by rewrite NumOrder.ge_not_gt.
Qed.

Lemma js_sort_stable_witness :
  js_sort byProbDescending
    [sampleFace 0 0 2 2 0.75; sampleFace 0 0 3 3 0.75; sampleFace 0 0 1 1 0.5]
  = [sampleFace 0 0 2 2 0.75; sampleFace 0 0 3 3 0.75; sampleFace 0 0 1 1 0.5].
Proof.
  apply (js_sort_stable
    [sampleFace 0 0 2 2 0.75; sampleFace 0 0 3 3 0.75; sampleFace 0 0 1 1 0.5]);
    repeat constructor.
Defined.

(** Candidates that passed a threshold are sorted by the comparator. *)
Lemma js_sort_scored_descending (t : num) (l : list FaceObject) :
  Forall (fun f => ge (prob f) t = true) l ->
  descending (js_sort byProbDescending l).
Proof.
  unfold js_sort. induction 1 as [|x l Hx Hl IH]; simpl; [constructor|].
  apply sortInsert_descending; [by eapply NumOrder.ge_not_nan| |done].
  apply Forall_forall. intros f Hf.
  apply (proj1 (js_sort_elem_of byProbDescending f l)) in Hf.
  rewrite Forall_forall in Hl. exact (NumOrder.ge_not_nan _ _ (Hl f Hf)).
Qed.

Lemma StronglySorted_lookup {A} (R : relation A) (l : list A) (i j : nat) (x y : A) :
  StronglySorted R l -> l !! i = Some x -> l !! j = Some y -> i < j -> R x y.
Proof.
  intros Hs. revert i j. induction Hs as [|z l Hs IH Hz]; intros i j Hi Hj Hij; [done|].
  destruct j as [|j]; [lia|]. destruct i as [|i]; simplify_eq/=.
  - rewrite Forall_forall in Hz. apply Hz. by eapply list_elem_of_lookup_2.
  - eapply IH; eauto with lia.
Qed.

(** Reading a sorted array at increasing indices gives a sorted array. *)
Lemma mapR_lookup_sorted {A B} (R : relation A) (R' : relation B) (f : A -> B)
    (l : list A) (picked : list nat) (out : list B) :
  (forall x x', R x x' -> R' (f x) (f x')) ->
  StronglySorted R l -> StronglySorted lt picked ->
  mapR (fun i => obj ←R deref (l !! i); Ok (f obj)) picked = Ok out ->
  StronglySorted R' out.
Proof.
  intros Hf Hl Hp Hmap. apply mapR_Forall2 in Hmap.
  induction Hmap as [|i y picked out Hi Hmap IH]; [constructor|].
  apply StronglySorted_inv in Hp as [Hp Hlt].
  constructor; [by apply IH|].
  destruct (l !! i) as [x|] eqn:Hx; simpl in Hi; [|done]. injection Hi as <-.
  apply Forall_forall. intros y' Hy'.
  destruct (proj1 (list_elem_of_lookup _ _) Hy') as [k Hk].
  destruct (Forall2_lookup_r _ _ _ _ _ Hmap Hk) as (i' & Hi' & Hy).
  destruct (l !! i') as [x'|] eqn:Hx'; simpl in Hy; [|done]. injection Hy as <-.
  apply Hf. eapply (StronglySorted_lookup R l i i'); eauto.
  rewrite Forall_forall in Hlt. by eapply Hlt, list_elem_of_lookup_2.
Qed.

(** X13.  The list [detect] returns is in order of descending prob:
    the best candidate comes first, and no [NaN] prob is among them. *)
Theorem detect_descending {σ : Type} (session_run : σ -> Tensor -> σ * RunOutcome)
    (width height : nat) (exp_impl : num -> num) (acceptsArguments : nat -> bool)
    (imageData : ImageData.t)
    (scale probThreshold nmsThreshold : num) (s s' : σ) (faces : list FaceObject) :
  detect session_run width height exp_impl acceptsArguments imageData
    scale probThreshold nmsThreshold s
  = (s', Ok faces) ->
  descending faces ∧ Forall (fun f => is_nan (prob f) = false) faces.
Proof.
  unfold detect. case_bool_decide as Hm; [done|].
  unfold Tensor_new. destruct (decide _) as [Hsz|Hsz]; [|done].
  destruct (session_run s _) as [s1 [results|reason]]; simpl; [|done].
  destruct (processStride _ _ _ _ _ 32 _) as [p1|] eqn:H1; simpl; [|done].
  destruct (processStride _ _ _ _ _ 16 _) as [p2|] eqn:H2; simpl; [|done].
  destruct (processStride _ _ _ _ _ 8 _) as [p3|] eqn:H3; simpl; [|done].
  rewrite nmsSortedBboxes_eq. simpl. intros [= _ Hmap].
  apply processStride_scored in H1; [|by repeat constructor..].
  apply processStride_scored in H2; [|by repeat constructor|done].
  apply processStride_scored in H3; [|by repeat constructor|done].
  assert (Forall (fun f => is_nan (prob f) = false) p3) as Hn.
  { eapply Forall_impl; [exact H3|]. intros f [Hf _]. by eapply NumOrder.ge_not_nan. }
  split.
  - unfold descending.
    eapply (mapR_lookup_sorted (fun f g => ge (prob f) (prob g) = true) _
              (rescale width height scale)); [| | |exact Hmap].
    + by intros x x' Hxx'.
    + apply (js_sort_scored_descending probThreshold).
      eapply Forall_impl; [exact H3|]. by intros f [Hf _].
    + apply greedyPick_sorted.
  - apply mapR_Forall2 in Hmap. apply Forall_forall. intros f Hf.
    destruct (proj1 (list_elem_of_lookup _ _) Hf) as [k Hk].
    destruct (Forall2_lookup_r _ _ _ _ _ Hmap Hk) as (i & _ & Hi).
    destruct (_ !! i) as [obj|] eqn:Hobj; simpl in Hi; [|done].
    injection Hi as <-. simpl.
    apply list_elem_of_lookup_2, js_sort_elem_of in Hobj.
    rewrite Forall_forall in Hn. by apply Hn.
Qed.

Lemma detect_descending_witness :
  detect (countingSession [0; 0; 0x1.99999ap-1; 0x1.ccccccp-1]%float) 32 32 exp_sample sampleAccepts
    sampleImage default_scale default_probThreshold default_nmsThreshold 0
  = (1, Ok (sampleDetection 0x1.ccccccp-1))
  ∧ descending (sampleDetection 0x1.ccccccp-1).
Proof.
  assert (detect (countingSession [0; 0; 0x1.99999ap-1; 0x1.ccccccp-1]%float) 32 32
            exp_sample sampleAccepts sampleImage default_scale default_probThreshold
            default_nmsThreshold 0
          = (1, Ok (sampleDetection 0x1.ccccccp-1))) as Hrun
    by (vm_compute; reflexivity).
  split; [exact Hrun|].
  exact (proj1 (detect_descending _ _ _ _ _ _ _ _ _ _ _ _ Hrun)).
Defined.

(** *** The clamp of the rescale step *)

(** X14.  At scale 1 the rescale step puts every rect without a [NaN]
    coordinate inside the image, [0, width-1]×[0, height-1], also a rect
    that lay wholly outside it or had infinite coordinates. *)
Theorem rescale_inside (width height : nat) (obj : FaceObject) :
  ge (Num.of_nat width - 1) 0 = true -> ge (Num.of_nat height - 1) 0 = true ->
  noNaN (rect obj) ->
  inside width height (rect (rescale width height 1 obj)).
Proof.
  intros Hw Hh (H0 & H1 & H2 & H3). unfold inside, rescale. cbn [rect r0 r1 r2 r3].
  rewrite !NumFacts.div_one.
  auto using NumOrder.clamp_bounds.
Qed.

Lemma rescale_inside_witness :
  inside 32 32 (rect (rescale 32 32 1 (sampleFace (-5) infinity 40 neg_infinity 0.75))).
Proof.
  apply (rescale_inside 32 32 (sampleFace (-5) infinity 40 neg_infinity 0.75));
    [reflexivity | reflexivity | by repeat split].
Defined.
